(** * yarn licenses: a shallow embedding of src/cli/commands/licenses.js

    The command resolves the installed manifests, sorts them by name, drops
    the ignored ones, and then either groups them by license and renders the
    groups as a table or a tree ([list]), or emits one disclaimer record per
    non-private manifest ([generateDisclaimer]).

    Conventions of the embedding:
    - an optional string property is an [option string], [None] being the JS
      value [undefined];
    - a string is a sequence of 8-bit code units;
    - a JS [Map] (insertion ordered, [set] on a known key keeps the key's
      position) is an association list without repeated keys;
    - a loop that pushes onto an array is a left fold that appends;
    - [invariant(cond, msg)] throws when [cond] is falsy: the loop body
      returns an [option], and [None] is the thrown error. *)

From Stdlib Require Import List String Ascii ZArith Lia Bool Permutation Sorted.
Import ListNotations.
Local Open Scope string_scope.
Local Open Scope list_scope.

(** ** JavaScript values *)

(** [!!v] for an optional string: [undefined] and the empty string are falsy. *)
Definition truthy (v : option string) : bool :=
  match v with
  | Some s => negb (s =? "")
  | None => false
  end.

(** [a || b] on optional strings. *)
Definition js_or (a b : option string) : option string :=
  if truthy a then a else b.

(** [a || 'literal']: the right operand is a string, and so is the result. *)
Definition js_or_str (a : option string) (b : string) : string :=
  match a with
  | Some s => if truthy a then s else b
  | None => b
  end.

(** An optional value spliced into a template literal. *)
Definition template (v : option string) : string :=
  match v with
  | Some s => s
  | None => "undefined"
  end.

(** [arr.push(x)]. *)
Definition push {A : Type} (arr : list A) (x : A) : list A := arr ++ [x].

(** ** String.prototype.trim

    White space is ECMAScript's WhiteSpace and LineTerminator, as far as they
    are single 8-bit code units: TAB, LF, VT, FF, CR, SP and NBSP. *)

Definition isWhiteSpace (c : ascii) : bool :=
  let n := nat_of_ascii c in
  (n =? 9)%nat || (n =? 10)%nat || (n =? 11)%nat || (n =? 12)%nat
  || (n =? 13)%nat || (n =? 32)%nat || (n =? 160)%nat.

Fixpoint trimStart (s : string) : string :=
  match s with
  | EmptyString => EmptyString
  | String c r => if isWhiteSpace c then trimStart r else s
  end.

Fixpoint trimEnd (s : string) : string :=
  match s with
  | EmptyString => EmptyString
  | String c r =>
      match trimEnd r with
      | EmptyString => if isWhiteSpace c then EmptyString else String c EmptyString
      | r' => String c r'
      end
  end.

Definition trim (s : string) : string := trimEnd (trimStart s).

(** Every code unit of [s] is white space. *)
Fixpoint allWhiteSpace (s : string) : bool :=
  match s with
  | EmptyString => true
  | String c r => isWhiteSpace c && allWhiteSpace r
  end.

Definition firstUnit (s : string) : option ascii :=
  match s with
  | EmptyString => None
  | String c _ => Some c
  end.

Fixpoint lastUnit (s : string) : option ascii :=
  match s with
  | EmptyString => None
  | String c EmptyString => Some c
  | String _ r => lastUnit r
  end.

(** ** Manifests

    Modelled from the spec: the [Manifest] type of types.js, which is not
    among the sources, with the properties section 3 of the specification
    lists and the command reads. Every optional property may be absent, the
    URL of a repository record included; [name] may be absent, [version]
    is a string. *)

Record Repository := { repo_url : option string }.

Record Author := { author_name : option string; author_url : option string }.

Record PackageReference := { ignore : bool }.

Record Manifest := {
  name : option string;
  version : string;
  license : option string;
  repository : option Repository;
  homepage : option string;
  author : option Author;
  licenseText : option string;
  private : option bool;
  _reference : option PackageReference
}.

(** ** Map *)

Abbreviation JSMap V := (list (string * V)) (only parsing).

Fixpoint Map_get {V : Type} (k : string) (m : JSMap V) : option V :=
  match m with
  | [] => None
  | (k', v) :: r => if k =? k' then Some v else Map_get k r
  end.

Definition Map_has {V : Type} (k : string) (m : JSMap V) : bool :=
  match Map_get k m with
  | Some _ => true
  | None => false
  end.

Fixpoint Map_set {V : Type} (k : string) (v : V) (m : JSMap V) : JSMap V :=
  match m with
  | [] => [(k, v)]
  | (k', v') :: r => if k =? k' then (k, v) :: r else (k', v') :: Map_set k v r
  end.

Definition Map_keys {V : Type} (m : JSMap V) : list string := map fst m.

(** ** Array.prototype.sort

    The sort is stable (ECMAScript 2019): an element moves left past exactly
    the elements the comparator puts after it. *)

Section ArraySort.
Context {A : Type}.
Variable compareFn : A -> A -> Z.

Fixpoint sort_insert (x : A) (sorted : list A) : list A :=
  match sorted with
  | [] => [x]
  | y :: r => if (0 <? compareFn x y)%Z then y :: sort_insert x r else x :: sorted
  end.

Fixpoint Array_sort (arr : list A) : list A :=
  match arr with
  | [] => []
  | x :: r => sort_insert x (Array_sort r)
  end.

End ArraySort.

(** ** The records the command derives *)

Record PackageLicenseInfo := {
  info_name : option string;
  info_version : string;
  info_url : option string;
  info_vendorUrl : option string;
  info_vendorName : option string
}.

Record DisclaimerEntry := {
  entry_name : option string;
  entry_version : string;
  entry_licenseText : option string;
  entry_license : option string;
  entry_homepage : option string
}.

(** The map [manifestsByLicense] of [list]: license key to package key to
    derived record. *)
Abbreviation Groups := (JSMap (JSMap PackageLicenseInfo)) (only parsing).

(** A node handed to [reporter.tree]: a leaf has no [children] property. *)
#[warnings="-register-all"]
Inductive Tree : Type :=
| TreeNode (label : string) (children : option (list Tree)).

(** What the command hands to its reporter. A table cell is a JS value:
    [None] is [undefined]. *)
Inductive ReporterCall : Type :=
| ReporterTable (head : list string) (body : list (list (option string)))
| ReporterTree (key : string) (trees : list Tree) (force : bool).

Section Licenses.

(** [String.prototype.localeCompare] in the host's locale. *)
Variable localeCompare : string -> string -> Z.

(** [reporter.format.bold]. *)
Variable bold : string -> string.

(** The comparator of [getManifests]. *)
Definition byName (a b : Manifest) : Z :=
  if negb (truthy (name a)) && negb (truthy (name b)) then 0%Z
  else if negb (truthy (name a)) then 1%Z
  else if negb (truthy (name b)) then (-1)%Z
  else localeCompare (template (name a)) (template (name b)).

(** The filter of [getManifests]: [!!ref && !ref.ignore]. *)
Definition notIgnored (manifest : Manifest) : bool :=
  match _reference manifest with
  | Some ref => negb (ignore ref)
  | None => false
  end.

(** [getManifests], from the list [install.resolver.getManifests()] gave. *)
Definition getManifests (resolved : list Manifest) : list Manifest :=
  let manifests := Array_sort byName resolved in
  filter notIgnored manifests.

(** The values the body of the grouping loop computes. *)
Definition licenseKeyOf (m : Manifest) : string :=
  js_or_str (license m) "UNKNOWN".

Definition urlOf (m : Manifest) : option string :=
  match repository m with
  | Some r => repo_url r
  | None => homepage m
  end.

Definition vendorUrlOf (m : Manifest) : option string :=
  js_or (homepage m)
        (match author m with Some a => author_url a | None => None end).

Definition vendorNameOf (m : Manifest) : option string :=
  match author m with
  | Some a => author_name a
  | None => None
  end.

Definition packageKey (n : option string) (v : string) : string :=
  template n ++ "@" ++ v.

Definition infoOf (m : Manifest) : PackageLicenseInfo :=
  {| info_name := name m;
     info_version := version m;
     info_url := urlOf m;
     info_vendorUrl := vendorUrlOf m;
     info_vendorName := vendorNameOf m |}.

(** One turn of the grouping loop of [list]. The inner map is shared with
    the outer one, so setting a package in it shows in the outer map at the
    license key's position. *)
Definition groupStep (manifestsByLicense : Groups) (m : Manifest) : option Groups :=
  let licenseKey := licenseKeyOf m in
  let manifestsByLicense1 :=
    if negb (Map_has licenseKey manifestsByLicense)
    then Map_set licenseKey [] manifestsByLicense
    else manifestsByLicense in
  match Map_get licenseKey manifestsByLicense1 with
  | Some byLicense =>
      Some (Map_set licenseKey
              (Map_set (packageKey (name m) (version m)) (infoOf m) byLicense)
              manifestsByLicense1)
  | None => None
  end.

Fixpoint groupFrom (manifestsByLicense : Groups) (manifests : list Manifest)
  : option Groups :=
  match manifests with
  | [] => Some manifestsByLicense
  | m :: rest =>
      match groupStep manifestsByLicense m with
      | Some g => groupFrom g rest
      | None => None
      end
  end.

(** The grouping loop of [list], from an empty map. *)
Definition group (manifests : list Manifest) : option Groups :=
  groupFrom [] manifests.

(** The [flags.json] branch of [list]. *)
Definition tableHead : list string :=
  ["Name"; "Version"; "License"; "URL"; "VendorUrl"; "VendorName"].

Definition tableRow (licenseKey : string) (i : PackageLicenseInfo)
  : list (option string) :=
  [info_name i; Some (info_version i); Some licenseKey;
   Some (js_or_str (info_url i) "Unknown");
   Some (js_or_str (info_vendorUrl i) "Unknown");
   Some (js_or_str (info_vendorName i) "Unknown")].

Definition tableBody (g : Groups) : list (list (option string)) :=
  fold_left
    (fun body '(licenseKey, license) =>
       fold_left (fun body '(_, i) => push body (tableRow licenseKey i))
                 license body)
    g [].

(** The tree branch of [list]. *)
Definition leaf (title : string) (value : string) : Tree :=
  TreeNode (bold title ++ " " ++ value) None.

Definition packageChildren (i : PackageLicenseInfo) : list Tree :=
  let children := [] in
  let children :=
    if truthy (info_url i)
    then push children (leaf "URL:" (template (info_url i))) else children in
  let children :=
    if truthy (info_vendorUrl i)
    then push children (leaf "VendorUrl:" (template (info_vendorUrl i)))
    else children in
  let children :=
    if truthy (info_vendorName i)
    then push children (leaf "VendorName:" (template (info_vendorName i)))
    else children in
  children.

Definition packageNode (i : PackageLicenseInfo) : Tree :=
  TreeNode (packageKey (info_name i) (info_version i)) (Some (packageChildren i)).

Definition licenseNode (licenseKey : string) (license : JSMap PackageLicenseInfo)
  : Tree :=
  TreeNode licenseKey
    (Some (fold_left (fun licenseTree '(_, i) => push licenseTree (packageNode i))
                     license [])).

Definition licenseTrees (g : Groups) : list Tree :=
  fold_left (fun trees '(licenseKey, license) =>
               push trees (licenseNode licenseKey license))
            g [].

(** [list]: the reporter call it ends in, or [None] when the invariant of
    the grouping loop throws. *)
Definition licenses_list (json : bool) (resolved : list Manifest)
  : option ReporterCall :=
  match group (getManifests resolved) with
  | Some manifestsByLicense =>
      Some (if json
            then ReporterTable tableHead (tableBody manifestsByLicense)
            else ReporterTree "licenses" (licenseTrees manifestsByLicense) true)
  | None => None
  end.

(** [generateDisclaimer]: the array handed to [JSON.stringify]. *)
Definition isPrivate (m : Manifest) : bool :=
  match private m with
  | Some b => b
  | None => false
  end.

Definition disclaimerEntry (m : Manifest) : DisclaimerEntry :=
  {| entry_name := name m;
     entry_version := version m;
     entry_licenseText :=
       if truthy (licenseText m)
       then option_map trim (licenseText m) else None;
     entry_license := license m;
     entry_homepage := homepage m |}.

Definition disclaimerData (manifests : list Manifest) : list DisclaimerEntry :=
  fold_left (fun data manifest =>
               if negb (isPrivate manifest)
               then push data (disclaimerEntry manifest) else data)
            manifests [].

Definition generateDisclaimer (resolved : list Manifest) : list DisclaimerEntry :=
  disclaimerData (getManifests resolved).

End Licenses.

(** ** A concrete collation

    Comparison by code units: the order [localeCompare] gives in a locale
    whose collation is the ordinal one. It instantiates the section's
    [localeCompare] in the examples. *)

Fixpoint codeUnitCompare (a b : string) : Z :=
  match a, b with
  | EmptyString, EmptyString => 0%Z
  | EmptyString, String _ _ => (-1)%Z
  | String _ _, EmptyString => 1%Z
  | String x a', String y b' =>
      match (N_of_ascii x ?= N_of_ascii y)%N with
      | Lt => (-1)%Z
      | Gt => 1%Z
      | Eq => codeUnitCompare a' b'
      end
  end.

(** What the ECMAScript specification asks of a comparator for the sort
    order to be defined: opposite signs on swapped arguments, and
    transitivity. *)
Definition consistentComparator {A : Type} (cmp : A -> A -> Z) : Prop :=
  (forall a b, Z.sgn (cmp b a) = (- Z.sgn (cmp a b))%Z)
  /\ (forall a b c, (cmp a b <= 0)%Z -> (cmp b c <= 0)%Z -> (cmp a c <= 0)%Z).

(** * The vocabulary of the statements *)

(** [notAfter cmp a b]: the comparator does not ask for [a] after [b]. *)
Definition notAfter {A : Type} (cmp : A -> A -> Z) (a b : A) : Prop :=
  (cmp a b <= 0)%Z.

(** A manifest is named when its name is a non-empty string. *)
Definition named (m : Manifest) : bool := truthy (name m).

Definition unnamed (m : Manifest) : bool := negb (named m).

(** The order [byName] sorts into: no unnamed manifest before a named one,
    and named manifests by [localeCompare] of their names. *)
Definition nameOrdered (localeCompare : string -> string -> Z)
  (a b : Manifest) : Prop :=
  (named b = true -> named a = true)
  /\ (forall x y, name a = Some x -> name b = Some y ->
                  x <> "" -> y <> "" -> (localeCompare x y <= 0)%Z).

(** Example manifests: a package that is kept, with a name, a version and a
    license and nothing else. *)
Definition pkg (n : option string) (v : string) (l : option string) : Manifest :=
  {| name := n; version := v; license := l; repository := None;
     homepage := None; author := None; licenseText := None; private := None;
     _reference := Some {| ignore := false |} |}.

(** The order the specification words: absent names last, the present ones
    by [localeCompare]. *)
Definition specNameOrdered (localeCompare : string -> string -> Z)
  (a b : Manifest) : Prop :=
  (name a = None -> name b = None)
  /\ (forall x y, name a = Some x -> name b = Some y -> (localeCompare x y <= 0)%Z).

Definition packageKeyOf (m : Manifest) : string :=
  packageKey (name m) (version m).

(** The bucket of a license key, empty when the key is not in the map. *)
Definition bucket (g : Groups) (k : string) : JSMap PackageLicenseInfo :=
  match Map_get k g with
  | Some b => b
  | None => []
  end.

(** The map one turn of the loop leaves. *)
Definition stepped (g : Groups) (m : Manifest) : Groups :=
  Map_set (licenseKeyOf m)
          (Map_set (packageKeyOf m) (infoOf m) (bucket g (licenseKeyOf m))) g.

(** Keys in the order they were first seen. *)
Definition addKey (seen : list string) (k : string) : list string :=
  if existsb (String.eqb k) seen then seen else seen ++ [k].

Definition firstSeen (keys : list string) : list string :=
  fold_left addKey keys [].

(** No license key and no package key of a bucket is repeated. *)
Definition uniqueKeys (g : Groups) : Prop :=
  NoDup (Map_keys g) /\ forall k, NoDup (Map_keys (bucket g k)).

(** The manifests a bucket and a package key select. *)
Definition writes (k pk : string) (m : Manifest) : bool :=
  (licenseKeyOf m =? k) && (packageKeyOf m =? pk).



(** The url the specification words: the repository URL when there is
    one, the homepage otherwise. *)
Definition specUrl (m : Manifest) : option string :=
  match repository m with
  | Some {| repo_url := Some u |} => Some u
  | _ => homepage m
  end.


(** A string neither starts nor ends with white space. *)
Definition edgesTrimmed (s : string) : Prop :=
  (forall c, firstUnit s = Some c -> isWhiteSpace c = false)
  /\ (forall c, lastUnit s = Some c -> isWhiteSpace c = false).

Definition notPrivate (m : Manifest) : bool := negb (isPrivate m).

(** The licenseText the specification words: trimmed when present. *)
Definition specLicenseText (m : Manifest) : option string :=
  option_map trim (licenseText m).

(** Every entry of a grouping stands under the package key of its own name
    and version. *)
Definition keyedByNameVersion (g : Groups) : Prop :=
  forall k b pk i, In (k, b) g -> In (pk, i) b ->
                   pk = packageKey (info_name i) (info_version i).

(** What a cell of the last three columns shows for a field. *)
Definition shownOrUnknown (field : option string) (cell : string) : Prop :=
  cell <> ""
  /\ (field = None -> cell = "Unknown")
  /\ (forall s, field = Some s -> cell = if s =? "" then "Unknown" else s).

(** The leaf of a field: none when the field is absent or empty. *)
Definition fieldLeaf (bold : string -> string) (title : string)
  (field : option string) : list Tree :=
  match field with
  | Some s => if s =? "" then [] else [TreeNode (bold title ++ " " ++ s) None]
  | None => []
  end.

(** The leaf of a field as the specification words it: none when the
    field is absent. *)
Definition specFieldLeaf (bold : string -> string) (title : string)
  (field : option string) : list Tree :=
  match field with
  | Some s => [TreeNode (bold title ++ " " ++ s) None]
  | None => []
  end.

(** The license key and the package key a manifest is grouped under. *)
Definition manifestKeys (m : Manifest) : string * string :=
  (licenseKeyOf m, packageKeyOf m).

(** The number of packages of a grouping, over all buckets. *)
Definition totalPackages (g : Groups) : nat :=
  list_sum (map (fun kb => List.length (snd kb)) g).

(** The record of a manifest as a bucket entry. *)
Definition entryOf (m : Manifest) : string * PackageLicenseInfo :=
  (packageKeyOf m, infoOf m).

(** The order of [nameOrdered], on the names themselves. *)
Definition namesOrdered (localeCompare : string -> string -> Z)
  (a b : option string) : Prop :=
  (truthy b = true -> truthy a = true)
  /\ (forall x y, a = Some x -> b = Some y ->
                  x <> "" -> y <> "" -> (localeCompare x y <= 0)%Z).

Definition treeLabel (t : Tree) : string :=
  match t with
  | TreeNode l _ => l
  end.

Definition treeChildren (t : Tree) : list Tree :=
  match t with
  | TreeNode _ (Some c) => c
  | TreeNode _ None => []
  end.

(** The packages a tree shows: license label and package label, in the
    order of the tree. *)
Definition treePackages (trees : list Tree) : list (string * string) :=
  flat_map (fun t => map (fun c => (treeLabel t, treeLabel c)) (treeChildren t))
           trees.

(** The package a table row shows: its License cell and the package key of
    its Name and Version cells. *)
Definition rowPackage (row : list (option string)) : option (string * string) :=
  match row with
  | n :: Some v :: Some k :: _ => Some (k, packageKey n v)
  | _ => None
  end.

(** The first of the candidates that is a non-empty string, or the
    default. *)
Fixpoint firstNonEmpty (candidates : list (option string)) (default : string)
  : string :=
  match candidates with
  | [] => default
  | Some s :: rest => if s =? "" then firstNonEmpty rest default else s
  | None :: rest => firstNonEmpty rest default
  end.

(** * Facts about the building blocks *)

(** ** Maps *)

Section MapFacts.
Context {V : Type}.
Implicit Types (m : JSMap V) (k : string) (v : V).

Lemma Map_get_set_same k v m : Map_get k (Map_set k v m) = Some v.
Proof.
  induction m as [|[k' v'] r IH]; simpl.
  - now rewrite String.eqb_refl.
  - destruct (k =? k') eqn:E; simpl; rewrite ?E, ?String.eqb_refl; auto.
Qed.

Lemma Map_get_set_other k k' v m :
  k' <> k -> Map_get k' (Map_set k v m) = Map_get k' m.
Proof.
  intros Hne. induction m as [|[k0 v0] r IH]; simpl.
  - apply String.eqb_neq in Hne. now rewrite Hne.
  - destruct (k =? k0) eqn:E; simpl.
    + apply String.eqb_eq in E. subst k0.
      apply String.eqb_neq in Hne. now rewrite Hne.
    + now rewrite IH.
Qed.

Lemma Map_get_set k k' v m :
  Map_get k' (Map_set k v m) = if k' =? k then Some v else Map_get k' m.
Proof.
  destruct (k' =? k) eqn:E.
  - apply String.eqb_eq in E. subst. apply Map_get_set_same.
  - apply String.eqb_neq in E. now apply Map_get_set_other.
Qed.

Lemma Map_has_keys k m : Map_has k m = existsb (String.eqb k) (Map_keys m).
Proof.
  unfold Map_has. induction m as [|[k' v'] r IH]; simpl; auto.
  destruct (k =? k'); auto.
Qed.

Lemma Map_get_None_keys k m : Map_get k m = None <-> ~ In k (Map_keys m).
Proof.
  induction m as [|[k' v'] r IH]; simpl.
  - tauto.
  - destruct (k =? k') eqn:E.
    + apply String.eqb_eq in E. subst. split; [discriminate | tauto].
    + apply String.eqb_neq in E. rewrite IH. split.
      * intros H [H1 | H1]; [congruence | tauto].
      * tauto.
Qed.

(** [set] on a key of the map keeps the keys and their order; on a new key
    it appends the key. *)
Lemma Map_keys_set k v m :
  Map_keys (Map_set k v m) =
  if Map_has k m then Map_keys m else Map_keys m ++ [k].
Proof.
  unfold Map_has. induction m as [|[k' v'] r IH]; simpl; auto.
  destruct (k =? k') eqn:E; simpl.
  - apply String.eqb_eq in E. now subst.
  - rewrite IH. now destruct (Map_get k r).
Qed.

Lemma Map_set_NoDup k v m : NoDup (Map_keys m) -> NoDup (Map_keys (Map_set k v m)).
Proof.
  intros H. rewrite Map_keys_set. destruct (Map_has k m) eqn:E; auto.
  unfold Map_has in E. destruct (Map_get k m) eqn:G; [discriminate|].
  apply Map_get_None_keys in G.
  apply NoDup_app; auto.
  - repeat constructor. simpl. tauto.
  - intros x Hx [Hy | []]. subst. tauto.
Qed.

Lemma Map_set_In k v m k' v' :
  In (k', v') (Map_set k v m) -> (k' = k /\ v' = v) \/ In (k', v') m.
Proof.
  induction m as [|[k0 v0] r IH]; simpl.
  - intros [H | []]. inversion H; auto.
  - destruct (k =? k0); simpl; intros [H | H]; auto.
    + inversion H; auto.
    + destruct (IH H); auto.
Qed.

(** Setting a key to the value it has changes nothing. *)
Lemma Map_set_same_value k v m : Map_get k m = Some v -> Map_set k v m = m.
Proof.
  induction m as [|[k0 v0] r IH]; simpl; [discriminate|].
  destruct (k =? k0) eqn:E.
  - apply String.eqb_eq in E. intros H. inversion H. now subst.
  - intros H. now rewrite IH.
Qed.

Lemma Map_set_set k v v' m : Map_set k v (Map_set k v' m) = Map_set k v m.
Proof.
  induction m as [|[k0 v0] r IH]; simpl.
  - now rewrite String.eqb_refl.
  - destruct (k =? k0) eqn:E; simpl; rewrite ?String.eqb_refl, ?E; auto.
    now rewrite IH.
Qed.

End MapFacts.

(** ** Filtering *)

Section FilterFacts.
Context {A : Type}.
Implicit Types (p q : A -> bool) (l : list A).

Lemma filter_swap p q l : filter p (filter q l) = filter q (filter p l).
Proof.
  induction l as [|x r IH]; simpl; auto.
  destruct (p x) eqn:P, (q x) eqn:Q; simpl; rewrite ?P, ?Q, IH; auto.
Qed.

Lemma filter_twice p l : filter p (filter p l) = filter p l.
Proof.
  induction l as [|x r IH]; simpl; auto.
  destruct (p x) eqn:P; simpl; rewrite ?P, IH; auto.
Qed.

Lemma filter_Permutation p l l' :
  Permutation l l' -> Permutation (filter p l) (filter p l').
Proof.
  induction 1 as [|x l l' _ IH|x y l|l l' l'' _ IH1 _ IH2]; simpl.
  - constructor.
  - destruct (p x); auto.
  - destruct (p x), (p y); auto using Permutation_refl, perm_swap.
  - eapply perm_trans; eauto.
Qed.

Lemma filter_StronglySorted (R : A -> A -> Prop) p l :
  StronglySorted R l -> StronglySorted R (filter p l).
Proof.
  induction 1 as [|x l _ IH Hx]; simpl; [constructor|].
  destruct (p x); auto. constructor; auto.
  rewrite Forall_forall in *. intros y Hy. apply filter_In in Hy. apply Hx, Hy.
Qed.

End FilterFacts.

(** ** The sort *)

Section SortFacts.
Context {A : Type}.
Variable cmp : A -> A -> Z.

Lemma sort_insert_Permutation x l : Permutation (sort_insert cmp x l) (x :: l).
Proof.
  induction l as [|y r IH]; simpl; auto.
  destruct (0 <? cmp x y)%Z; auto.
  eapply perm_trans; [apply perm_skip, IH | apply perm_swap].
Qed.

Lemma Array_sort_Permutation l : Permutation (Array_sort cmp l) l.
Proof.
  induction l as [|x r IH]; simpl; auto.
  eapply perm_trans; [apply sort_insert_Permutation | auto].
Qed.

(** An element keeps its place among the elements of a class [p] whose
    members the comparator never puts after one another. *)
Lemma sort_insert_filter (p : A -> bool) x l :
  (forall y, In y l -> p x = true -> p y = true -> notAfter cmp x y) ->
  filter p (sort_insert cmp x l) = filter p (x :: l).
Proof.
  unfold notAfter. induction l as [|y r IH]; intros H; auto.
  cbn [sort_insert]. destruct (0 <? cmp x y)%Z eqn:E; auto.
  apply Z.ltb_lt in E.
  assert (Hxy : p x = true -> p y = true -> False).
  { intros Px Py. specialize (H y (or_introl eq_refl) Px Py). lia. }
  cbn [filter]. rewrite IH by (intros z Hz; apply H; now right).
  cbn [filter]. destruct (p x) eqn:Px, (p y) eqn:Py; auto. now destruct Hxy.
Qed.

Lemma Array_sort_filter (p : A -> bool) l :
  (forall x y, p x = true -> p y = true -> notAfter cmp x y) ->
  filter p (Array_sort cmp l) = filter p l.
Proof.
  intros H. induction l as [|x r IH]; simpl; auto.
  rewrite sort_insert_filter by auto. simpl. now rewrite IH.
Qed.

(** A list in which no element is asked after its successor is left as it
    is. *)
Lemma Array_sort_Sorted_id l : Sorted (notAfter cmp) l -> Array_sort cmp l = l.
Proof.
  induction 1 as [|x l _ IH Hx]; simpl; auto.
  rewrite IH. destruct Hx as [|y r Hxy]; simpl; auto.
  unfold notAfter in Hxy. destruct (0 <? cmp x y)%Z eqn:E; auto.
  apply Z.ltb_lt in E. lia.
Qed.

Hypothesis cmp_consistent : consistentComparator cmp.

Lemma notAfter_swap x y : (0 < cmp x y)%Z -> notAfter cmp y x.
Proof.
  destruct cmp_consistent as [Hs _]. unfold notAfter. intros H.
  specialize (Hs x y). lia.
Qed.

Lemma notAfter_trans x y z : notAfter cmp x y -> notAfter cmp y z -> notAfter cmp x z.
Proof. destruct cmp_consistent as [_ Ht]. apply Ht. Qed.

Lemma sort_insert_StronglySorted x l :
  StronglySorted (notAfter cmp) l -> StronglySorted (notAfter cmp) (sort_insert cmp x l).
Proof.
  induction 1 as [|y r Hr IH Hy]; simpl.
  - repeat constructor.
  - destruct (0 <? cmp x y)%Z eqn:E.
    + apply Z.ltb_lt in E. constructor; auto.
      rewrite Forall_forall in *. intros z Hz.
      apply (Permutation_in _ (sort_insert_Permutation x r)) in Hz.
      destruct Hz as [<- | Hz]; auto using notAfter_swap.
    + apply Z.ltb_ge in E. constructor; [constructor; auto|].
      constructor; auto.
      rewrite Forall_forall in *. intros z Hz.
      apply notAfter_trans with y; auto.
Qed.

Lemma Array_sort_StronglySorted l : StronglySorted (notAfter cmp) (Array_sort cmp l).
Proof.
  induction l as [|x r IH]; simpl; [constructor|].
  now apply sort_insert_StronglySorted.
Qed.

(** Stability: the elements that compare equal to [k] keep their order. *)
Lemma Array_sort_stable k l :
  filter (fun y => (cmp k y =? 0)%Z) (Array_sort cmp l) =
  filter (fun y => (cmp k y =? 0)%Z) l.
Proof.
  apply Array_sort_filter. intros x y Hx Hy.
  apply Z.eqb_eq in Hx, Hy. destruct cmp_consistent as [Hs Ht].
  apply Ht with k; [|lia]. specialize (Hs k x). lia.
Qed.

(** Sorting what is sorted changes nothing. *)
Lemma Array_sort_idempotent l :
  Array_sort cmp (Array_sort cmp l) = Array_sort cmp l.
Proof.
  apply Array_sort_Sorted_id, StronglySorted_Sorted, Array_sort_StronglySorted.
Qed.

End SortFacts.

(** ** The concrete collation is a consistent comparator *)

Lemma codeUnitCompare_sgn a b :
  Z.sgn (codeUnitCompare b a) = (- Z.sgn (codeUnitCompare a b))%Z.
Proof.
  revert b. induction a as [|x a IH]; intros [|y b]; simpl; auto.
  rewrite (N.compare_antisym (N_of_ascii x) (N_of_ascii y)).
  destruct (N_of_ascii x ?= N_of_ascii y)%N; simpl; auto.
Qed.

Lemma codeUnitCompare_trans a b c :
  (codeUnitCompare a b <= 0)%Z -> (codeUnitCompare b c <= 0)%Z ->
  (codeUnitCompare a c <= 0)%Z.
Proof.
  revert b c. induction a as [|x a IH]; intros [|y b] [|z c]; simpl; try lia.
  destruct (N.compare_spec (N_of_ascii x) (N_of_ascii y)) as [E1|E1|E1];
    destruct (N.compare_spec (N_of_ascii y) (N_of_ascii z)) as [E2|E2|E2];
    destruct (N.compare_spec (N_of_ascii x) (N_of_ascii z)) as [E3|E3|E3];
    try lia; eauto.
Qed.

Lemma codeUnitCompare_consistent : consistentComparator codeUnitCompare.
Proof.
  split; [intros a b; apply codeUnitCompare_sgn | apply codeUnitCompare_trans].
Qed.

(** ** The comparator of [getManifests] *)

Section ByNameFacts.
Variable localeCompare : string -> string -> Z.

Lemma truthy_Some (v : option string) :
  truthy v = true <-> exists s, v = Some s /\ s <> "".
Proof.
  destruct v as [s|]; simpl.
  - rewrite negb_true_iff, String.eqb_neq. split.
    + intros H. eauto.
    + intros (s' & E & H). now inversion E; subst.
  - split; [discriminate | intros (s & E & _); discriminate].
Qed.

Lemma byName_unnamed a b :
  unnamed a = true -> unnamed b = true -> byName localeCompare a b = 0%Z.
Proof.
  unfold unnamed, named, byName. intros Ha Hb. now rewrite Ha, Hb.
Qed.

Lemma byName_nameOrdered a b :
  notAfter (byName localeCompare) a b <-> nameOrdered localeCompare a b.
Proof.
  unfold notAfter, nameOrdered, named, byName.
  destruct (name a) as [x|] eqn:Ea, (name b) as [y|] eqn:Eb; simpl;
    try destruct (x =? "") eqn:Ex; try destruct (y =? "") eqn:Ey; simpl;
    rewrite ?String.eqb_eq, ?String.eqb_neq in *; subst;
    (split; [intros H; split; [auto; try lia | intros ? ? E1 E2; inversion E1; inversion E2; subst; try tauto; try discriminate]
            | intros [H1 H2]; try lia; try (specialize (H1 eq_refl); discriminate); auto]).
Qed.

Hypothesis localeCompare_consistent : consistentComparator localeCompare.

Lemma byName_consistent : consistentComparator (byName localeCompare).
Proof.
  destruct localeCompare_consistent as [Hs Ht]. split.
  - intros a b. unfold byName.
    destruct (truthy (name a)), (truthy (name b)); simpl; auto.
  - intros a b c. unfold byName.
    destruct (truthy (name a)), (truthy (name b)), (truthy (name c)); simpl;
      try lia. apply Ht.
Qed.

End ByNameFacts.

(** * [getManifests]: the sort and the filter *)

Lemma StronglySorted_weaken {A : Type} (R R' : A -> A -> Prop) (l : list A) :
  (forall a b, R a b -> R' a b) -> StronglySorted R l -> StronglySorted R' l.
Proof.
  intros H. induction 1 as [|x l _ IH Hx]; constructor; auto.
  eapply Forall_impl; [|exact Hx]. auto.
Qed.

(** The spec's example of section 8: [b@1.0, a@2.0, c@1.0] is collected as
    [a@2.0, b@1.0, c@1.0]. *)
Example getManifests_spec_example :
  getManifests codeUnitCompare
    [pkg (Some "b") "1.0" (Some "MIT"); pkg (Some "a") "2.0" (Some "MIT");
     pkg (Some "c") "1.0" None]
  = [pkg (Some "a") "2.0" (Some "MIT"); pkg (Some "b") "1.0" (Some "MIT");
     pkg (Some "c") "1.0" None].
Proof. reflexivity. Qed.

(** C3, as the claim words it, fails: a manifest whose name is the empty
    string is named, and the comparator treats it as unnamed. A manifest with
    an absent name then stays before it, so the result is not in the order
    "absent names after every named manifest". *)
Lemma getManifests_empty_name_counterexample :
  getManifests codeUnitCompare [pkg None "1.0" None; pkg (Some "") "1.0" None]
  = [pkg None "1.0" None; pkg (Some "") "1.0" None]
  /\ ~ StronglySorted (specNameOrdered codeUnitCompare)
       (getManifests codeUnitCompare
          [pkg None "1.0" None; pkg (Some "") "1.0" None])
  /\ getManifests codeUnitCompare [pkg (Some "") "1.0" None; pkg (Some "a") "1.0" None]
     = [pkg (Some "a") "1.0" None; pkg (Some "") "1.0" None]
  /\ codeUnitCompare "a" "" = 1%Z.
Proof.
  split; [reflexivity|]. split; [|split; reflexivity].
  intros H. apply StronglySorted_inv in H. destruct H as [_ H].
  apply Forall_inv in H. destruct H as [H _].
  specialize (H eq_refl). discriminate.
Qed.

(** C3 (amended): [getManifests] returns the kept manifests of a permutation
    of its input that is sorted by name, where a manifest counts as named
    when its name is a non-empty string: no unnamed manifest stands before a
    named one, named manifests are in [localeCompare] order, manifests the
    comparator ties (the unnamed ones among them) keep their relative
    order, and the result holds exactly the manifests of the input whose
    reference is present and not flagged [ignore]. *)
Theorem getManifests_sorted_filtered
  (localeCompare : string -> string -> Z)
  (Hcollation : consistentComparator localeCompare)
  (resolved : list Manifest) :
  (exists sorted,
      Permutation sorted resolved
      /\ StronglySorted (nameOrdered localeCompare) sorted
      /\ getManifests localeCompare resolved = filter notIgnored sorted)
  /\ StronglySorted (nameOrdered localeCompare) (getManifests localeCompare resolved)
  /\ filter unnamed (getManifests localeCompare resolved)
     = filter unnamed (filter notIgnored resolved)
  /\ (forall k,
        filter (fun m => (byName localeCompare k m =? 0)%Z)
               (getManifests localeCompare resolved)
        = filter (fun m => (byName localeCompare k m =? 0)%Z)
                 (filter notIgnored resolved))
  /\ Permutation (getManifests localeCompare resolved) (filter notIgnored resolved)
  /\ (forall m,
        In m (getManifests localeCompare resolved)
        <-> In m resolved
            /\ exists ref, _reference m = Some ref /\ ignore ref = false).
Proof.
  pose proof (byName_consistent localeCompare Hcollation) as Hc.
  assert (Hs : StronglySorted (nameOrdered localeCompare)
                 (Array_sort (byName localeCompare) resolved)).
  { eapply StronglySorted_weaken; [|apply Array_sort_StronglySorted, Hc].
    intros a b. apply byName_nameOrdered. }
  unfold getManifests. repeat split.
  - exists (Array_sort (byName localeCompare) resolved).
    auto using Array_sort_Permutation.
  - now apply filter_StronglySorted.
  - rewrite filter_swap, Array_sort_filter, filter_swap; auto.
    intros x y Hx Hy. unfold notAfter. rewrite byName_unnamed; auto. lia.
  - intros k. rewrite filter_swap, Array_sort_stable, filter_swap; auto.
  - apply filter_Permutation, Array_sort_Permutation.
  - apply filter_In in H. destruct H as [H _].
    eapply Permutation_in; [apply Array_sort_Permutation | exact H].
  - apply filter_In in H. destruct H as [_ H]. unfold notIgnored in H.
    destruct (_reference m) as [ref|]; [|discriminate].
    exists ref. split; auto. now apply negb_true_iff.
  - intros [Hin (ref & Href & Hign)]. apply filter_In. split.
    + eapply Permutation_in; [apply Permutation_sym, Array_sort_Permutation | exact Hin].
    + unfold notIgnored. now rewrite Href, Hign.
Qed.

Lemma getManifests_sorted_filtered_witness :
  consistentComparator codeUnitCompare
  /\ StronglySorted (nameOrdered codeUnitCompare)
       (getManifests codeUnitCompare
          [pkg (Some "b") "1.0" (Some "MIT"); pkg None "0.1" None;
           pkg (Some "a") "2.0" (Some "MIT")]).
Proof.
  split; [exact codeUnitCompare_consistent|].
  exact (proj1 (proj2 (getManifests_sorted_filtered codeUnitCompare
                         codeUnitCompare_consistent
                         [pkg (Some "b") "1.0" (Some "MIT"); pkg None "0.1" None;
                          pkg (Some "a") "2.0" (Some "MIT")]))).
Defined.

(** * The grouping loop *)

(** The invariant of the loop never throws: the bucket was just created
    when it was not there. *)
Lemma groupStep_stepped g m : groupStep g m = Some (stepped g m).
Proof.
  unfold groupStep, stepped, bucket, Map_has.
  destruct (Map_get (licenseKeyOf m) g) as [b|] eqn:E; simpl.
  - now rewrite E.
  - now rewrite Map_get_set_same, Map_set_set.
Qed.

Lemma groupFrom_fold l : forall g, groupFrom g l = Some (fold_left stepped l g).
Proof.
  induction l as [|m r IH]; intros g; simpl; auto.
  now rewrite groupStep_stepped, IH.
Qed.

Lemma groupFrom_app l1 l2 g :
  groupFrom g (l1 ++ l2) = groupFrom (fold_left stepped l1 g) l2.
Proof. now rewrite !groupFrom_fold, fold_left_app. Qed.

(** The grouping loop always ends in a map. *)
Lemma group_total l : exists g, group l = Some g.
Proof. unfold group. rewrite groupFrom_fold. eauto. Qed.

Lemma stepped_keys g m :
  Map_keys (stepped g m) = addKey (Map_keys g) (licenseKeyOf m).
Proof.
  unfold stepped, addKey. now rewrite Map_keys_set, Map_has_keys.
Qed.

Lemma stepped_bucket g m k :
  bucket (stepped g m) k =
  if k =? licenseKeyOf m
  then Map_set (packageKeyOf m) (infoOf m) (bucket g k)
  else bucket g k.
Proof.
  unfold stepped, bucket at 1. rewrite Map_get_set.
  destruct (k =? licenseKeyOf m) eqn:E; auto.
  apply String.eqb_eq in E. now subst.
Qed.

Lemma stepped_uniqueKeys g m : uniqueKeys g -> uniqueKeys (stepped g m).
Proof.
  intros [H1 H2]. split.
  - now apply Map_set_NoDup.
  - intros k. rewrite stepped_bucket.
    destruct (k =? licenseKeyOf m); auto using Map_set_NoDup.
Qed.

(** The map between the lazy creation of a bucket and the write into it. *)
Lemma created_uniqueKeys g k :
  uniqueKeys g ->
  uniqueKeys (if negb (Map_has k g) then Map_set k [] g else g).
Proof.
  intros [H1 H2]. destruct (negb (Map_has k g)); [|now split]. split.
  - now apply Map_set_NoDup.
  - intros k'. unfold bucket. rewrite Map_get_set.
    destruct (k' =? k); [constructor | apply H2].
Qed.

Lemma fold_stepped_uniqueKeys l : forall g,
  uniqueKeys g -> uniqueKeys (fold_left stepped l g).
Proof.
  induction l as [|m r IH]; intros g H; simpl; auto using stepped_uniqueKeys.
Qed.

Lemma uniqueKeys_empty : uniqueKeys [].
Proof. split; [|intros k]; constructor. Qed.

Lemma fold_stepped_keys l : forall g,
  Map_keys (fold_left stepped l g) =
  fold_left addKey (map licenseKeyOf l) (Map_keys g).
Proof.
  induction l as [|m r IH]; intros g; simpl; auto.
  now rewrite IH, stepped_keys.
Qed.

Lemma fold_stepped_bucket_keys k l : forall g,
  Map_keys (bucket (fold_left stepped l g) k) =
  fold_left addKey
    (map packageKeyOf (filter (fun m => licenseKeyOf m =? k) l))
    (Map_keys (bucket g k)).
Proof.
  induction l as [|m r IH]; intros g; simpl; auto.
  rewrite IH, stepped_bucket, (String.eqb_sym k).
  destruct (licenseKeyOf m =? k); simpl; auto.
  unfold addKey at 3. now rewrite Map_keys_set, Map_has_keys.
Qed.

(** Last write wins: a bucket holds, under a package key, what the last
    manifest with that license key and package key wrote. *)
Lemma fold_stepped_entry k pk l : forall g,
  Map_get pk (bucket (fold_left stepped l g) k) =
  match find (writes k pk) (rev l) with
  | Some m => Some (infoOf m)
  | None => Map_get pk (bucket g k)
  end.
Proof.
  induction l as [|m r IH] using rev_ind; intros g; simpl; auto.
  rewrite fold_left_app, rev_app_distr. simpl.
  rewrite stepped_bucket, (String.eqb_sym k). unfold writes at 1.
  destruct (licenseKeyOf m =? k) eqn:E1; simpl.
  - rewrite Map_get_set, (String.eqb_sym pk).
    destruct (packageKeyOf m =? pk); auto.
  - auto.
Qed.

Lemma bucket_get g k :
  Map_get k g = None \/ Map_get k g = Some (bucket g k).
Proof. unfold bucket. destruct (Map_get k g); auto. Qed.

(** The spec's example of section 8: the collected list [a@2.0, b@1.0,
    c@1.0] is grouped into the buckets MIT (a@2.0, b@1.0) and UNKNOWN
    (c@1.0). *)
Example group_spec_example :
  option_map (map (fun '(k, b) => (k, Map_keys b)))
    (group [pkg (Some "a") "2.0" (Some "MIT"); pkg (Some "b") "1.0" (Some "MIT");
            pkg (Some "c") "1.0" None])
  = Some [("MIT", ["a@2.0"; "b@1.0"]); ("UNKNOWN", ["c@1.0"])].
Proof. reflexivity. Qed.

Example firstSeen_example :
  firstSeen ["MIT"; "ISC"; "MIT"; "UNKNOWN"; "ISC"] = ["MIT"; "ISC"; "UNKNOWN"].
Proof. reflexivity. Qed.

(** C8: package keys are unique within every bucket (and license keys
    within the map) after every turn of the grouping loop, so in the map a
    prefix [before] of the manifests leaves, in that map once the bucket of
    the next manifest is created, and in the final one;
    a bucket holds under a package key what the last manifest with that
    license key and package key wrote; license keys stand in first-seen
    order, and the package keys of a bucket in the order of their first
    insertion. *)
Theorem group_unique_keys_last_write_wins (before after : list Manifest) :
  exists during final,
    group before = Some during
    /\ uniqueKeys during
    /\ (forall m,
          uniqueKeys (if negb (Map_has (licenseKeyOf m) during)
                      then Map_set (licenseKeyOf m) [] during else during))
    /\ groupFrom during after = Some final
    /\ group (before ++ after) = Some final
    /\ uniqueKeys final
    /\ Map_keys final = firstSeen (map licenseKeyOf (before ++ after))
    /\ (forall k,
          Map_keys (bucket final k)
          = firstSeen (map packageKeyOf
                         (filter (fun m => licenseKeyOf m =? k) (before ++ after))))
    /\ (forall k pk,
          Map_get pk (bucket final k)
          = option_map infoOf (find (writes k pk) (rev (before ++ after)))).
Proof.
  exists (fold_left stepped before []), (fold_left stepped (before ++ after) []).
  unfold group. rewrite groupFrom_app, !groupFrom_fold, <- fold_left_app.
  assert (U : forall l, uniqueKeys (fold_left stepped l []))
    by (intros l; apply fold_stepped_uniqueKeys, uniqueKeys_empty).
  split; [reflexivity|]. split; [apply U|].
  split; [intros m; apply created_uniqueKeys, U|].
  split; [reflexivity|]. split; [reflexivity|]. split; [apply U|].
  split; [|split].
  - apply fold_stepped_keys.
  - intros k. apply fold_stepped_bucket_keys.
  - intros k pk. rewrite fold_stepped_entry.
    now destruct (find (writes k pk) (rev (before ++ after))).
Qed.

(** * Where a manifest ends up *)












(** * The derived url *)

(** C2, as the claim words it, fails: a manifest with a repository record
    that has no URL, and with a homepage, gets no url at all, because the
    loop looks at the repository record and not at its URL. *)
Lemma group_url_counterexample :
  let m := {| name := Some "x"; version := "1.0"; license := Some "MIT";
              repository := Some {| repo_url := None |};
              homepage := Some "https://x.example";
              author := None; licenseText := None; private := None;
              _reference := Some {| ignore := false |} |} in
  group [m]
  = Some [("MIT", [("x@1.0",
                    {| info_name := Some "x"; info_version := "1.0";
                       info_url := None;
                       info_vendorUrl := Some "https://x.example";
                       info_vendorName := None |})])]
  /\ specUrl m = Some "https://x.example".
Proof. split; reflexivity. Qed.

(** C2 (amended): the record a turn of the grouping loop stores for a
    manifest has as its url the URL of the manifest's repository record,
    present or not, when the manifest has a repository record, and the
    manifest's homepage when it has none; so a repository URL that is
    present is the url, and a manifest without a repository record gets its
    homepage. *)
Theorem group_url_of_repository_record (g : Groups) (m : Manifest) :
  exists g' b e,
    groupStep g m = Some g'
    /\ Map_get (licenseKeyOf m) g' = Some b
    /\ Map_get (packageKeyOf m) b = Some e
    /\ info_url e
       = match repository m with
         | Some r => repo_url r
         | None => homepage m
         end
    /\ (forall r u, repository m = Some r -> repo_url r = Some u ->
                    info_url e = Some u)
    /\ (repository m = None -> info_url e = homepage m).
Proof.
  exists (stepped g m),
         (Map_set (packageKeyOf m) (infoOf m) (bucket g (licenseKeyOf m))),
         (infoOf m).
  split; [apply groupStep_stepped|].
  split; [unfold stepped; apply Map_get_set_same|].
  split; [apply Map_get_set_same|].
  simpl. unfold urlOf. split; [reflexivity|]. split.
  - intros r u -> ->. reflexivity.
  - intros ->. reflexivity.
Qed.

(** * Empty licenses *)

Lemma addKey_In k seen k' : In k' (addKey seen k) <-> In k' seen \/ k' = k.
Proof.
  unfold addKey. destruct (existsb (String.eqb k) seen) eqn:E.
  - apply existsb_exists in E. destruct E as (x & Hx & E).
    apply String.eqb_eq in E. subst x. split; [tauto | intros [H | ->]; auto].
  - rewrite in_app_iff. simpl. intuition (subst; auto).
Qed.

Lemma fold_addKey_In k' ks : forall seen,
  In k' (fold_left addKey ks seen) <-> In k' seen \/ In k' ks.
Proof.
  induction ks as [|k r IH]; intros seen; simpl; [tauto|].
  rewrite IH, addKey_In. intuition auto.
Qed.


(** * Trimming *)

Lemma trimStart_split s :
  exists pre, s = (pre ++ trimStart s)%string /\ allWhiteSpace pre = true.
Proof.
  induction s as [|c r (pre & E & H)]; simpl.
  - exists "". auto.
  - destruct (isWhiteSpace c) eqn:W.
    + exists (String c pre). simpl. rewrite W, H. split; auto. now rewrite <- E.
    + exists "". auto.
Qed.

Lemma trimStart_first s c :
  firstUnit (trimStart s) = Some c -> isWhiteSpace c = false.
Proof.
  induction s as [|x r IH]; simpl; [discriminate|].
  destruct (isWhiteSpace x) eqn:W; auto. simpl. intros E. now inversion E; subst.
Qed.

Lemma trimEnd_split s :
  exists post, s = (trimEnd s ++ post)%string /\ allWhiteSpace post = true.
Proof.
  induction s as [|c r (post & E & H)]; simpl.
  - exists "". auto.
  - destruct (trimEnd r) as [|y t] eqn:T.
    + destruct (isWhiteSpace c) eqn:W.
      * exists (String c post). simpl in *. rewrite W, H. split; auto. now rewrite <- E.
      * exists post. simpl in *. split; auto. now rewrite <- E.
    + exists post. split; auto. simpl in *. now rewrite <- E.
Qed.

Lemma trimEnd_last s c :
  lastUnit (trimEnd s) = Some c -> isWhiteSpace c = false.
Proof.
  induction s as [|x r IH]; simpl; [discriminate|].
  destruct (trimEnd r) as [|y t] eqn:T.
  - destruct (isWhiteSpace x) eqn:W; simpl; [discriminate|].
    intros E. now inversion E; subst.
  - simpl. simpl in IH. exact IH.
Qed.

Lemma trimEnd_first s c :
  firstUnit (trimEnd s) = Some c -> firstUnit s = Some c.
Proof.
  destruct s as [|x r]; simpl; auto.
  destruct (trimEnd r); [destruct (isWhiteSpace x)|]; simpl; auto; discriminate.
Qed.

Lemma trim_spec s :
  (exists pre post,
      s = (pre ++ trim s ++ post)%string
      /\ allWhiteSpace pre = true /\ allWhiteSpace post = true)
  /\ edgesTrimmed (trim s).
Proof.
  unfold trim. split.
  - destruct (trimStart_split s) as (pre & E1 & H1).
    destruct (trimEnd_split (trimStart s)) as (post & E2 & H2).
    exists pre, post. split; auto. now rewrite <- E2.
  - split; intros c H.
    + apply trimEnd_first in H. now apply trimStart_first in H.
    + now apply trimEnd_last in H.
Qed.

Example trim_spec_example : trim " MIT License " = "MIT License".
Proof. reflexivity. Qed.

(** * The disclaimer *)

Lemma disclaimer_fold l : forall data,
  fold_left (fun data manifest =>
               if negb (isPrivate manifest)
               then push data (disclaimerEntry manifest) else data) l data
  = data ++ map disclaimerEntry (filter notPrivate l).
Proof.
  induction l as [|m r IH]; intros data; simpl.
  - now rewrite app_nil_r.
  - rewrite IH. unfold notPrivate, push.
    destruct (negb (isPrivate m)); simpl; auto. now rewrite <- app_assoc.
Qed.

Lemma disclaimerData_map l :
  disclaimerData l = map disclaimerEntry (filter notPrivate l).
Proof. unfold disclaimerData. now rewrite disclaimer_fold. Qed.

(** C1, as the claim words it, fails: [generateDisclaimer] reads the
    manifests through [getManifests], as [list] does. A manifest without a
    reference is not in the output although it is not private, and two
    manifests the provider gave as b, a come out as a, b. *)
Lemma generateDisclaimer_counterexample :
  (let m := {| name := Some "x"; version := "1.0"; license := Some "MIT";
               repository := None; homepage := None; author := None;
               licenseText := None; private := None; _reference := None |} in
   generateDisclaimer codeUnitCompare [m] = []
   /\ map disclaimerEntry (filter notPrivate [m]) = [disclaimerEntry m])
  /\ generateDisclaimer codeUnitCompare
       [pkg (Some "b") "1.0" (Some "MIT"); pkg (Some "a") "2.0" (Some "MIT")]
     = [disclaimerEntry (pkg (Some "a") "2.0" (Some "MIT"));
        disclaimerEntry (pkg (Some "b") "1.0" (Some "MIT"))].
Proof. repeat split. Qed.

(** C1 (amended): the disclaimer entries are the entries of the non-private
    manifests of the list [getManifests] returns, in that list's order: the
    provider's list sorted by name and without the ignored manifests. They
    are the non-private manifests of the provider's list in its own order
    when that list is already in the order of the comparator and holds no
    ignored manifest. *)
Theorem generateDisclaimer_non_private_of_getManifests
  (localeCompare : string -> string -> Z) (resolved : list Manifest) :
  generateDisclaimer localeCompare resolved
  = map disclaimerEntry (filter notPrivate (getManifests localeCompare resolved))
  /\ generateDisclaimer localeCompare resolved
     = map disclaimerEntry
         (filter notPrivate
            (filter notIgnored (Array_sort (byName localeCompare) resolved)))
  /\ (Sorted (notAfter (byName localeCompare)) resolved ->
      forallb notIgnored resolved = true ->
      generateDisclaimer localeCompare resolved
      = map disclaimerEntry (filter notPrivate resolved)).
Proof.
  unfold generateDisclaimer. rewrite disclaimerData_map.
  repeat split. intros Hs Hk. unfold getManifests.
  rewrite Array_sort_Sorted_id by exact Hs.
  rewrite (forallb_filter_id notIgnored resolved Hk). reflexivity.
Qed.

Lemma generateDisclaimer_non_private_of_getManifests_witness :
  Sorted (notAfter (byName codeUnitCompare))
    [pkg (Some "a") "2.0" (Some "MIT"); pkg (Some "b") "1.0" (Some "MIT")]
  /\ generateDisclaimer codeUnitCompare
       [pkg (Some "a") "2.0" (Some "MIT"); pkg (Some "b") "1.0" (Some "MIT")]
     = map disclaimerEntry
         (filter notPrivate
            [pkg (Some "a") "2.0" (Some "MIT"); pkg (Some "b") "1.0" (Some "MIT")]).
Proof.
  assert (Hs : Sorted (notAfter (byName codeUnitCompare))
                 [pkg (Some "a") "2.0" (Some "MIT");
                  pkg (Some "b") "1.0" (Some "MIT")]).
  { repeat constructor. unfold notAfter. vm_compute. discriminate. }
  split; [exact Hs|].
  exact (proj2 (proj2 (generateDisclaimer_non_private_of_getManifests
                         codeUnitCompare
                         [pkg (Some "a") "2.0" (Some "MIT");
                          pkg (Some "b") "1.0" (Some "MIT")])) Hs eq_refl).
Defined.

(** C9, as the claim words it, fails: a licenseText that is the empty
    string is present, and the entry's licenseText is left absent, not set
    to the (trimmed) empty string. *)
Lemma disclaimerEntry_licenseText_counterexample :
  let m := {| name := Some "x"; version := "1.0"; license := Some "MIT";
              repository := None; homepage := None; author := None;
              licenseText := Some ""; private := None;
              _reference := Some {| ignore := false |} |} in
  generateDisclaimer codeUnitCompare [m]
  = [{| entry_name := Some "x"; entry_version := "1.0";
        entry_licenseText := None; entry_license := Some "MIT";
        entry_homepage := None |}]
  /\ specLicenseText m = Some "".
Proof. split; reflexivity. Qed.

(** C9 (amended): every entry of the disclaimer output is the entry of a
    non-private manifest [getManifests] kept, and every such manifest has
    its entry; the entry carries the manifest's name, version, license and
    homepage, and as licenseText the manifest's licenseText without its
    leading and trailing white space when that is a non-empty string, and
    nothing when the manifest's licenseText is absent or the empty
    string. *)
Theorem disclaimerEntry_fields
  (localeCompare : string -> string -> Z) (resolved : list Manifest) :
  (forall e,
      In e (generateDisclaimer localeCompare resolved)
      <-> exists m, In m (getManifests localeCompare resolved)
                    /\ isPrivate m = false /\ e = disclaimerEntry m)
  /\ forall m,
       entry_name (disclaimerEntry m) = name m
       /\ entry_version (disclaimerEntry m) = version m
       /\ entry_license (disclaimerEntry m) = license m
       /\ entry_homepage (disclaimerEntry m) = homepage m
       /\ (forall s, licenseText m = Some s -> s <> "" ->
                     entry_licenseText (disclaimerEntry m) = Some (trim s)
                     /\ (exists pre post,
                            s = (pre ++ trim s ++ post)%string
                            /\ allWhiteSpace pre = true
                            /\ allWhiteSpace post = true)
                     /\ edgesTrimmed (trim s))
       /\ (licenseText m = None \/ licenseText m = Some "" ->
           entry_licenseText (disclaimerEntry m) = None).
Proof.
  split.
  - intros e. unfold generateDisclaimer. rewrite disclaimerData_map, in_map_iff.
    split.
    + intros (m & <- & Hm). apply filter_In in Hm. destruct Hm as [Hin Hp].
      exists m. repeat split; auto. now apply negb_true_iff.
    + intros (m & Hin & Hp & ->). exists m. split; auto.
      apply filter_In. split; auto. unfold notPrivate. now rewrite Hp.
  - intros m. repeat split; simpl.
    + rewrite H. simpl. apply String.eqb_neq in H0. now rewrite H0.
    + apply (proj1 (trim_spec s)).
    + apply (proj2 (trim_spec s)).
    + apply (proj2 (trim_spec s)).
    + intros [-> | ->]; reflexivity.
Qed.

Lemma disclaimerEntry_fields_witness :
  let m := {| name := Some "x"; version := "1.0"; license := Some "MIT";
              repository := None; homepage := None; author := None;
              licenseText := Some " MIT License "; private := Some false;
              _reference := Some {| ignore := false |} |} in
  entry_licenseText (disclaimerEntry m) = Some "MIT License".
Proof.
  exact (proj1 (proj1 (proj2 (proj2 (proj2 (proj2
    (proj2 (disclaimerEntry_fields codeUnitCompare [])
       {| name := Some "x"; version := "1.0"; license := Some "MIT";
          repository := None; homepage := None; author := None;
          licenseText := Some " MIT License "; private := Some false;
          _reference := Some {| ignore := false |} |})))))
    " MIT License " eq_refl ltac:(discriminate))).
Defined.

(** * Rendering *)

Lemma Map_get_In {V : Type} (k : string) (v : V) (m : JSMap V) :
  Map_get k m = Some v -> In (k, v) m.
Proof.
  induction m as [|[k' v'] r IH]; simpl; [discriminate|].
  destruct (k =? k') eqn:E; auto.
  apply String.eqb_eq in E. intros H. inversion H. subst. auto.
Qed.

Lemma stepped_keyedByNameVersion g m :
  keyedByNameVersion g -> keyedByNameVersion (stepped g m).
Proof.
  intros H k b pk i Hb Hi. unfold stepped in Hb.
  apply Map_set_In in Hb. destruct Hb as [[-> ->] | Hb]; [|eauto].
  apply Map_set_In in Hi. destruct Hi as [[-> ->] | Hi]; [reflexivity|].
  destruct (bucket_get g (licenseKeyOf m)) as [N | S].
  - unfold bucket in Hi. rewrite N in Hi. destruct Hi.
  - apply Map_get_In in S. eauto.
Qed.

Lemma group_keyedByNameVersion l g :
  group l = Some g -> keyedByNameVersion g.
Proof.
  unfold group. rewrite groupFrom_fold. intros E. inversion E. clear E H0.
  assert (H : keyedByNameVersion []) by (intros k b pk i []).
  revert H. generalize (@nil (string * list (string * PackageLicenseInfo))).
  induction l as [|m r IH]; intros g0 H; simpl; auto using stepped_keyedByNameVersion.
Qed.

Lemma js_or_str_shownOrUnknown field :
  shownOrUnknown field (js_or_str field "Unknown").
Proof.
  unfold shownOrUnknown, js_or_str, truthy. destruct field as [s|].
  - destruct (s =? "") eqn:E; simpl.
    + repeat split; try discriminate. intros s' H. inversion H; subst. now rewrite E.
    + repeat split; try discriminate.
      * now apply String.eqb_neq.
      * intros s' H. inversion H; subst. now rewrite E.
  - repeat split; try discriminate.
Qed.

Lemma tableRows_fold (k : string) (license : JSMap PackageLicenseInfo) :
  forall body,
  fold_left (fun body '(_, i) => push body (tableRow k i)) license body
  = body ++ map (fun e => tableRow k (snd e)) license.
Proof.
  induction license as [|[pk i] r IH]; intros body; simpl.
  - now rewrite app_nil_r.
  - rewrite IH. unfold push. now rewrite <- app_assoc.
Qed.

Lemma tableBody_flat_map (g : Groups) :
  tableBody g
  = flat_map (fun kb => map (fun e => tableRow (fst kb) (snd e)) (snd kb)) g.
Proof.
  unfold tableBody. rewrite <- (app_nil_l (flat_map _ g)).
  generalize (@nil (list (option string))).
  induction g as [|[k b] r IH]; intros body; simpl.
  - now rewrite app_nil_r.
  - rewrite tableRows_fold, IH. now rewrite <- app_assoc.
Qed.

Lemma flat_map_length_sum {A B : Type} (f : A -> list B) (l : list A) :
  List.length (flat_map f l) = list_sum (map (fun x => List.length (f x)) l).
Proof.
  induction l as [|x r IH]; simpl; auto. now rewrite List.length_app, IH.
Qed.

(** C5: with the json flag set, [list] hands the reporter a table whose
    head is Name, Version, License, URL, VendorUrl, VendorName and whose
    body has one row per package of the grouping, bucket after bucket: as
    many rows as the buckets hold packages. A row is the package's name,
    version and license key followed by its url, vendorUrl and vendorName,
    each of the three shown as "Unknown" when absent (or empty), never as an
    empty string and never as an undefined cell. *)
Theorem list_json_table
  (localeCompare : string -> string -> Z) (bold : string -> string)
  (resolved : list Manifest) :
  exists g body,
    group (getManifests localeCompare resolved) = Some g
    /\ licenses_list localeCompare bold true resolved
       = Some (ReporterTable
                 ["Name"; "Version"; "License"; "URL"; "VendorUrl"; "VendorName"]
                 body)
    /\ body = flat_map (fun kb => map (fun e => tableRow (fst kb) (snd e)) (snd kb)) g
    /\ List.length body = list_sum (map (fun kb => List.length (snd kb)) g)
    /\ Forall (fun row =>
                 exists k b pk i url vendorUrl vendorName,
                   In (k, b) g /\ In (pk, i) b
                   /\ row = [info_name i; Some (info_version i); Some k;
                             Some url; Some vendorUrl; Some vendorName]
                   /\ shownOrUnknown (info_url i) url
                   /\ shownOrUnknown (info_vendorUrl i) vendorUrl
                   /\ shownOrUnknown (info_vendorName i) vendorName)
              body.
Proof.
  destruct (group_total (getManifests localeCompare resolved))
    as (g & Hg).
  exists g, (tableBody g). unfold licenses_list. rewrite Hg.
  split; auto. split; auto. split; [apply tableBody_flat_map|].
  rewrite tableBody_flat_map. split.
  - rewrite flat_map_length_sum. f_equal. apply map_ext.
    intros [k b]. simpl. apply List.length_map.
  - apply Forall_forall. intros row Hrow.
    apply in_flat_map in Hrow. destruct Hrow as ([k b] & Hkb & Hrow).
    simpl in Hrow. apply in_map_iff in Hrow.
    destruct Hrow as ([pk i] & <- & Hi). simpl.
    exists k, b, pk, i, (js_or_str (info_url i) "Unknown"),
      (js_or_str (info_vendorUrl i) "Unknown"),
      (js_or_str (info_vendorName i) "Unknown").
    repeat split; auto; apply js_or_str_shownOrUnknown.
Qed.

Lemma fieldLeaf_length bold title field :
  (List.length (fieldLeaf bold title field) <= 1)%nat.
Proof.
  unfold fieldLeaf. destruct field as [s|]; simpl; auto.
  destruct (s =? ""); simpl; auto.
Qed.

Lemma packageChildren_leaves bold i :
  packageChildren bold i
  = fieldLeaf bold "URL:" (info_url i)
    ++ fieldLeaf bold "VendorUrl:" (info_vendorUrl i)
    ++ fieldLeaf bold "VendorName:" (info_vendorName i).
Proof.
  unfold packageChildren, fieldLeaf, leaf, push, truthy.
  destruct (info_url i) as [u|]; [destruct (u =? "")|];
    (destruct (info_vendorUrl i) as [v|]; [destruct (v =? "")|]);
    (destruct (info_vendorName i) as [n|]; [destruct (n =? "")|]);
    reflexivity.
Qed.

Lemma packageNodes_fold bold (license : JSMap PackageLicenseInfo) :
  forall licenseTree,
  fold_left (fun licenseTree '(_, i) => push licenseTree (packageNode bold i))
            license licenseTree
  = licenseTree ++ map (fun e => packageNode bold (snd e)) license.
Proof.
  induction license as [|[pk i] r IH]; intros licenseTree; simpl.
  - now rewrite app_nil_r.
  - rewrite IH. unfold push. now rewrite <- app_assoc.
Qed.

Lemma licenseTrees_map bold (g : Groups) :
  licenseTrees bold g
  = map (fun kb =>
           TreeNode (fst kb)
             (Some (map (fun e => packageNode bold (snd e)) (snd kb)))) g.
Proof.
  unfold licenseTrees. rewrite <- (app_nil_l (map _ g)).
  generalize (@nil Tree).
  induction g as [|[k b] r IH]; intros trees; simpl.
  - now rewrite app_nil_r.
  - rewrite IH. unfold push, licenseNode. rewrite packageNodes_fold.
    simpl. now rewrite <- app_assoc.
Qed.

(** C6, as the claim words it, fails: a field that is the empty string is
    present, and its leaf is left out. A manifest with an empty homepage and
    no repository has the url "", and its package node has no child. *)
Lemma list_tree_counterexample :
  let m := {| name := Some "x"; version := "1.0"; license := Some "MIT";
              repository := None; homepage := Some ""; author := None;
              licenseText := None; private := None;
              _reference := Some {| ignore := false |} |} in
  licenses_list codeUnitCompare (fun s => s) false [m]
  = Some (ReporterTree "licenses"
            [TreeNode "MIT" (Some [TreeNode "x@1.0" (Some [])])] true)
  /\ info_url (infoOf m) = Some ""
  /\ specFieldLeaf (fun s => s) "URL:" (info_url (infoOf m))
     = [TreeNode "URL: " None].
Proof. repeat split. Qed.

(** C6 (amended): without the json flag, [list] hands the reporter the
    tree "licenses", forced, with one node per bucket in bucket order,
    labelled with the license key, whose children are one node per package
    of the bucket in the bucket's order, labelled name@version, which is the
    package's key in the bucket; the children of a package node are the
    leaves of url, vendorUrl and vendorName in this order, at most three,
    the leaf of a field being there exactly when the field is a non-empty
    string. *)
Theorem list_tree
  (localeCompare : string -> string -> Z) (bold : string -> string)
  (resolved : list Manifest) :
  exists g,
    group (getManifests localeCompare resolved) = Some g
    /\ licenses_list localeCompare bold false resolved
       = Some (ReporterTree "licenses"
                 (map (fun kb =>
                         TreeNode (fst kb)
                           (Some (map (fun e =>
                                         TreeNode
                                           (packageKey (info_name (snd e))
                                                       (info_version (snd e)))
                                           (Some (fieldLeaf bold "URL:" (info_url (snd e))
                                                  ++ fieldLeaf bold "VendorUrl:"
                                                       (info_vendorUrl (snd e))
                                                  ++ fieldLeaf bold "VendorName:"
                                                       (info_vendorName (snd e)))))
                                      (snd kb))))
                      g)
                 true)
    /\ keyedByNameVersion g
    /\ (forall i,
          (List.length (fieldLeaf bold "URL:" (info_url i)
                        ++ fieldLeaf bold "VendorUrl:" (info_vendorUrl i)
                        ++ fieldLeaf bold "VendorName:" (info_vendorName i))
           <= 3)%nat)
    /\ (forall title field,
          (fieldLeaf bold title field = []
           <-> field = None \/ field = Some "")
          /\ (forall s, field = Some s -> s <> "" ->
                        fieldLeaf bold title field
                        = [TreeNode (bold title ++ " " ++ s) None])).
Proof.
  destruct (group_total (getManifests localeCompare resolved)) as (g & Hg).
  exists g. unfold licenses_list. rewrite Hg. split; auto. split.
  - rewrite licenseTrees_map. do 2 f_equal. apply map_ext. intros [k b].
    simpl. do 2 f_equal. apply map_ext. intros [pk i]. simpl.
    unfold packageNode. now rewrite packageChildren_leaves.
  - split; [eapply group_keyedByNameVersion; eauto|]. split.
    + intros i. rewrite !List.length_app.
      pose proof (fieldLeaf_length bold "URL:" (info_url i)).
      pose proof (fieldLeaf_length bold "VendorUrl:" (info_vendorUrl i)).
      pose proof (fieldLeaf_length bold "VendorName:" (info_vendorName i)).
      lia.
    + intros title field. unfold fieldLeaf. destruct field as [s|].
      * destruct (s =? "") eqn:E.
        -- apply String.eqb_eq in E. subst. split.
           ++ split; auto.
           ++ intros s' H Hs. inversion H. subst. now destruct Hs.
        -- split.
           ++ split; [discriminate|]. intros [H | H]; [discriminate|].
              inversion H. subst. discriminate.
           ++ intros s' H _. now inversion H.
      * split; [tauto | discriminate].
Qed.

(** * Running the aggregation again *)

(** Maps with the same keys in the same order and the same values are the
    same map. *)
Lemma Map_ext {V : Type} (m1 : JSMap V) : forall m2 : JSMap V,
  NoDup (Map_keys m1) -> Map_keys m1 = Map_keys m2 ->
  (forall k, Map_get k m1 = Map_get k m2) -> m1 = m2.
Proof.
  induction m1 as [|[k1 v1] r1 IH]; intros [|[k2 v2] r2] Hnd Hk Hg;
    try discriminate; auto.
  simpl in Hk. inversion Hk as [[Hk1 Hk2]]. subst k2.
  inversion Hnd as [|? ? Hnotin Hnd']. subst.
  pose proof (Hg k1) as Hv. simpl in Hv. rewrite String.eqb_refl in Hv.
  inversion Hv. subst v2. f_equal. apply IH; auto.
  intros k. destruct (String.eqb_spec k k1) as [-> | Hne].
  - assert (N1 : Map_get k1 r1 = None) by now apply Map_get_None_keys.
    assert (N2 : Map_get k1 r2 = None).
    { apply Map_get_None_keys. unfold Map_keys in *. now rewrite <- Hk2. }
    congruence.
  - specialize (Hg k). simpl in Hg. apply String.eqb_neq in Hne.
    now rewrite Hne in Hg.
Qed.

Lemma fold_addKey_absorb ks : forall seen,
  (forall k, In k ks -> In k seen) -> fold_left addKey ks seen = seen.
Proof.
  induction ks as [|k r IH]; intros seen H; simpl; auto.
  assert (E : addKey seen k = seen).
  { unfold addKey. destruct (existsb (String.eqb k) seen) eqn:X; auto.
    assert (Hin : In k seen) by (apply H; now left).
    assert (Y : existsb (String.eqb k) seen = true).
    { apply existsb_exists. exists k. split; auto. apply String.eqb_refl. }
    congruence. }
  rewrite E. apply IH. intros k' Hk'. apply H. now right.
Qed.

Lemma Map_get_bucket (g : Groups) k :
  Map_get k g = if existsb (String.eqb k) (Map_keys g)
                then Some (bucket g k) else None.
Proof.
  rewrite <- Map_has_keys. unfold Map_has, bucket. now destruct (Map_get k g).
Qed.

(** Feeding a grouping the manifests it was made from changes nothing. *)
Lemma fold_stepped_again l :
  fold_left stepped l (fold_left stepped l []) = fold_left stepped l [].
Proof.
  set (g1 := fold_left stepped l []).
  assert (U1 : uniqueKeys g1) by apply fold_stepped_uniqueKeys, uniqueKeys_empty.
  assert (U2 : uniqueKeys (fold_left stepped l g1))
    by now apply fold_stepped_uniqueKeys.
  assert (K : Map_keys (fold_left stepped l g1) = Map_keys g1).
  { rewrite fold_stepped_keys. apply fold_addKey_absorb. intros k Hk.
    unfold g1. rewrite fold_stepped_keys. apply fold_addKey_In. now right. }
  assert (B : forall k, bucket (fold_left stepped l g1) k = bucket g1 k).
  { intros k. apply Map_ext.
    - apply U2.
    - rewrite fold_stepped_bucket_keys. apply fold_addKey_absorb. intros pk Hpk.
      unfold g1. rewrite fold_stepped_bucket_keys. apply fold_addKey_In. now right.
    - intros pk. rewrite fold_stepped_entry.
      destruct (find (writes k pk) (rev l)) as [m|] eqn:F; auto.
      unfold g1. now rewrite fold_stepped_entry, F. }
  apply Map_ext; auto.
  - apply U2.
  - intros k. now rewrite !Map_get_bucket, K, B.
Qed.

Lemma getManifests_again localeCompare resolved :
  consistentComparator localeCompare ->
  getManifests localeCompare (getManifests localeCompare resolved)
  = getManifests localeCompare resolved.
Proof.
  intros H. pose proof (byName_consistent localeCompare H) as Hc.
  unfold getManifests.
  rewrite Array_sort_Sorted_id; [apply filter_twice|].
  apply StronglySorted_Sorted, filter_StronglySorted.
  now apply Array_sort_StronglySorted.
Qed.

(** C7: aggregating the same manifests again gives the same grouping,
    bucket for bucket and entry for entry, in the same order: when the
    manifests are resolved afresh, and when the collected manifests are fed
    once more into the grouping they made; and, [localeCompare] being a
    consistent comparator, when the second run finds the array as the first
    run's sort left it, and when it starts from the list the first run
    collected. *)
Theorem regroup_idempotent
  (localeCompare : string -> string -> Z) (resolved : list Manifest) :
  exists g,
    group (getManifests localeCompare resolved) = Some g
    /\ (forall g', group (getManifests localeCompare resolved) = Some g' -> g' = g)
    /\ groupFrom g (getManifests localeCompare resolved) = Some g
    /\ (consistentComparator localeCompare ->
        group (getManifests localeCompare
                 (Array_sort (byName localeCompare) resolved)) = Some g
        /\ getManifests localeCompare (getManifests localeCompare resolved)
           = getManifests localeCompare resolved
        /\ group (getManifests localeCompare
                    (getManifests localeCompare resolved)) = Some g).
Proof.
  exists (fold_left stepped (getManifests localeCompare resolved) []).
  split; [apply groupFrom_fold|]. split; [|split].
  - unfold group. rewrite groupFrom_fold. intros g' E. now inversion E.
  - rewrite groupFrom_fold. f_equal. apply fold_stepped_again.
  - intros Hcollation.
    pose proof (byName_consistent localeCompare Hcollation) as Hc.
    split; [|split].
    + unfold getManifests at 1. rewrite Array_sort_idempotent by exact Hc.
      apply groupFrom_fold.
    + now apply getManifests_again.
    + rewrite getManifests_again by exact Hcollation. apply groupFrom_fold.
Qed.

Lemma regroup_idempotent_witness :
  consistentComparator codeUnitCompare
  /\ exists g,
       group (getManifests codeUnitCompare
                [pkg (Some "b") "1.0" (Some "MIT"); pkg (Some "a") "2.0" (Some "MIT");
                 pkg (Some "c") "1.0" None]) = Some g
       /\ group (getManifests codeUnitCompare
                   (getManifests codeUnitCompare
                      [pkg (Some "b") "1.0" (Some "MIT");
                       pkg (Some "a") "2.0" (Some "MIT");
                       pkg (Some "c") "1.0" None])) = Some g.
Proof.
  split; [exact codeUnitCompare_consistent|].
  destruct (regroup_idempotent codeUnitCompare
              [pkg (Some "b") "1.0" (Some "MIT"); pkg (Some "a") "2.0" (Some "MIT");
               pkg (Some "c") "1.0" None]) as (g & H1 & _ & _ & H4).
  exists g. split; [exact H1|].
  exact (proj2 (proj2 (H4 codeUnitCompare_consistent))).
Defined.

(** * More about the command *)

(** ** What a grouping holds *)

Lemma fold_stepped_snoc l m g :
  fold_left stepped (l ++ [m]) g = stepped (fold_left stepped l g) m.
Proof. now rewrite fold_left_app. Qed.

Lemma stepped_In g m k b :
  In (k, b) (stepped g m) ->
  (k = licenseKeyOf m
   /\ b = Map_set (packageKeyOf m) (infoOf m) (bucket g (licenseKeyOf m)))
  \/ In (k, b) g.
Proof. unfold stepped. apply Map_set_In. Qed.

Lemma bucket_In g k pk i : In (pk, i) (bucket g k) -> In (k, bucket g k) g.
Proof.
  destruct (bucket_get g k) as [N | S].
  - unfold bucket. rewrite N. intros [].
  - intros _. now apply Map_get_In.
Qed.

Lemma fold_stepped_from_manifests l k b pk i :
  In (k, b) (fold_left stepped l []) -> In (pk, i) b ->
  exists m, In m l /\ k = licenseKeyOf m /\ pk = packageKeyOf m /\ i = infoOf m.
Proof.
  revert k b pk i. induction l as [|m r IH] using rev_ind; intros k b pk i Hb Hi.
  - destruct Hb.
  - rewrite fold_stepped_snoc in Hb. apply stepped_In in Hb.
    assert (Hold : forall k b pk i,
               In (k, b) (fold_left stepped r []) -> In (pk, i) b ->
               exists m0, In m0 (r ++ [m]) /\ k = licenseKeyOf m0
                          /\ pk = packageKeyOf m0 /\ i = infoOf m0).
    { intros k0 b0 pk0 i0 H1 H2. destruct (IH _ _ _ _ H1 H2) as (m0 & Hm0 & H).
      exists m0. split; auto. apply in_or_app. now left. }
    destruct Hb as [[-> ->] | Hb]; [|eauto].
    apply Map_set_In in Hi. destruct Hi as [[-> ->] | Hi].
    + exists m. split; auto. apply in_or_app. right. now left.
    + eapply Hold; [|exact Hi]. eapply bucket_In; eauto.
Qed.

Lemma getManifests_In localeCompare resolved m :
  In m (getManifests localeCompare resolved)
  <-> In m resolved /\ notIgnored m = true.
Proof.
  unfold getManifests. rewrite filter_In. split; intros [H1 H2]; split; auto.
  - eapply Permutation_in; [apply Array_sort_Permutation | exact H1].
  - eapply Permutation_in; [apply Permutation_sym, Array_sort_Permutation | exact H1].
Qed.

(** X2: a grouping holds nothing but records of manifests that were
    resolved and are not ignored: every entry of every bucket is the record
    of such a manifest, under that manifest's license key and package
    key. *)
Theorem group_entries_from_manifests
  (localeCompare : string -> string -> Z) (resolved : list Manifest) :
  exists g,
    group (getManifests localeCompare resolved) = Some g
    /\ forall k b pk i, In (k, b) g -> In (pk, i) b ->
         exists m, In m resolved /\ notIgnored m = true
                   /\ k = licenseKeyOf m /\ pk = packageKeyOf m
                   /\ i = infoOf m.
Proof.
  exists (fold_left stepped (getManifests localeCompare resolved) []).
  split; [apply groupFrom_fold|]. intros k b pk i Hb Hi.
  destruct (fold_stepped_from_manifests _ _ _ _ _ Hb Hi) as (m & Hm & H).
  apply getManifests_In in Hm. destruct Hm. exists m. tauto.
Qed.

Lemma Map_set_not_nil {V : Type} k (v : V) (m : JSMap V) : Map_set k v m <> [].
Proof. destruct m as [|[k' v'] r]; simpl; [|destruct (k =? k')]; discriminate. Qed.

Lemma fold_stepped_no_empty_bucket l k b :
  In (k, b) (fold_left stepped l []) -> b <> [].
Proof.
  revert k b. induction l as [|m r IH] using rev_ind; intros k b Hb.
  - destruct Hb.
  - rewrite fold_stepped_snoc in Hb. apply stepped_In in Hb.
    destruct Hb as [[-> ->] | Hb]; [apply Map_set_not_nil | eauto].
Qed.

(** X3: no bucket of a grouping is empty, so every license node of the
    tree has a package below it; and a grouping of at least one manifest has
    at least one bucket. *)
Theorem group_no_empty_bucket (manifests : list Manifest) :
  exists g,
    group manifests = Some g
    /\ Forall (fun kb => snd kb <> []) g
    /\ (g = [] <-> manifests = []).
Proof.
  exists (fold_left stepped manifests []). split; [apply groupFrom_fold|]. split.
  - apply Forall_forall. intros [k b] H. simpl.
    eapply fold_stepped_no_empty_bucket; eauto.
  - split.
    + destruct manifests as [|m r] using rev_ind; auto.
      rewrite fold_stepped_snoc. intros E. unfold stepped in E.
      now apply Map_set_not_nil in E.
    + intros ->. reflexivity.
Qed.

(** ** How large a grouping is *)

Lemma Map_set_new {V : Type} k (v : V) (m : JSMap V) :
  Map_has k m = false -> Map_set k v m = m ++ [(k, v)].
Proof.
  unfold Map_has. induction m as [|[k' v'] r IH]; simpl; auto.
  destruct (k =? k'); [discriminate|]. intros H. now rewrite IH.
Qed.

Lemma Map_set_length {V : Type} k (v : V) (m : JSMap V) :
  List.length (Map_set k v m)
  = if Map_has k m then List.length m else S (List.length m).
Proof.
  unfold Map_has. induction m as [|[k' v'] r IH]; simpl; auto.
  destruct (k =? k'); simpl; auto. rewrite IH. now destruct (Map_get k r).
Qed.

Lemma totalPackages_set (g : Groups) k b :
  (totalPackages (Map_set k b g) + List.length (bucket g k)
   = totalPackages g + List.length b)%nat.
Proof.
  unfold totalPackages, bucket. induction g as [|[k0 b0] r IH]; simpl; [lia|].
  destruct (k =? k0); simpl; lia.
Qed.

Lemma stepped_totalPackages g m :
  totalPackages (stepped g m)
  = (totalPackages g
     + if Map_has (packageKeyOf m) (bucket g (licenseKeyOf m)) then 0 else 1)%nat.
Proof.
  pose proof (totalPackages_set g (licenseKeyOf m)
                (Map_set (packageKeyOf m) (infoOf m) (bucket g (licenseKeyOf m)))) as H.
  rewrite Map_set_length in H. fold (stepped g m) in H.
  destruct (Map_has (packageKeyOf m) (bucket g (licenseKeyOf m))); lia.
Qed.

Lemma fold_stepped_sizes l :
  (List.length (fold_left stepped l []) <= totalPackages (fold_left stepped l [])
   /\ totalPackages (fold_left stepped l []) <= List.length l)%nat.
Proof.
  split.
  - assert (H : forall k b, In (k, b) (fold_left stepped l []) -> b <> [])
      by (intros k b; apply fold_stepped_no_empty_bucket).
    revert H. generalize (fold_left stepped l []). intros g.
    unfold totalPackages. induction g as [|[k b] r IH]; intros H; simpl; auto.
    assert (Hb : b <> []) by (apply (H k); now left).
    assert (Hr : (List.length r <= list_sum (map (fun kb => List.length (snd kb)) r))%nat)
      by (apply IH; intros k' b' Hin; apply (H k'); now right).
    destruct b; [now destruct Hb | simpl; lia].
  - induction l as [|m r IH] using rev_ind; simpl; auto.
    rewrite fold_stepped_snoc, stepped_totalPackages, List.length_app. simpl.
    destruct (Map_has _ _); lia.
Qed.

Lemma filter_length_le {A : Type} (p : A -> bool) (l : list A) :
  (List.length (filter p l) <= List.length l)%nat.
Proof. induction l as [|x r IH]; simpl; auto. destruct (p x); simpl; lia. Qed.

(** X4: the table never has more rows than there are manifests left after
    the filter, which are no more than the resolved ones, and never fewer
    rows than the grouping has buckets. *)
Theorem list_json_row_count_bounds
  (localeCompare : string -> string -> Z) (bold : string -> string)
  (resolved : list Manifest) :
  exists g body,
    group (getManifests localeCompare resolved) = Some g
    /\ licenses_list localeCompare bold true resolved
       = Some (ReporterTable tableHead body)
    /\ (List.length g <= List.length body)%nat
    /\ (List.length body <= List.length (getManifests localeCompare resolved))%nat
    /\ (List.length (getManifests localeCompare resolved)
        <= List.length resolved)%nat.
Proof.
  set (l := getManifests localeCompare resolved).
  exists (fold_left stepped l []), (tableBody (fold_left stepped l [])).
  assert (Hg : group l = Some (fold_left stepped l [])) by apply groupFrom_fold.
  split; auto. split; [unfold licenses_list; fold l; now rewrite Hg|].
  assert (Hb : List.length (tableBody (fold_left stepped l []))
               = totalPackages (fold_left stepped l [])).
  { rewrite tableBody_flat_map, flat_map_length_sum. unfold totalPackages.
    f_equal. apply map_ext. intros [k b]. simpl. apply List.length_map. }
  rewrite Hb. destruct (fold_stepped_sizes l). repeat split; auto.
  unfold l, getManifests.
  rewrite <- (Permutation_length (Array_sort_Permutation (byName localeCompare) resolved)).
  apply filter_length_le.
Qed.

(** ** Manifests with distinct keys *)

Lemma filter_snoc {A : Type} (p : A -> bool) (l : list A) (x : A) :
  filter p (l ++ [x]) = filter p l ++ (if p x then [x] else []).
Proof. rewrite filter_app. simpl. now destruct (p x). Qed.

Lemma entries_lack_new_key r m :
  ~ In (manifestKeys m) (map manifestKeys r) ->
  Map_has (packageKeyOf m)
          (map entryOf (filter (fun m0 => licenseKeyOf m0 =? licenseKeyOf m) r))
  = false.
Proof.
  intros Hnew. rewrite Map_has_keys. apply not_true_is_false. intros Hex.
  apply existsb_exists in Hex. destruct Hex as (pk & Hin & E).
  apply String.eqb_eq in E. subst pk. unfold Map_keys in Hin.
  rewrite map_map in Hin. apply in_map_iff in Hin.
  destruct Hin as (m' & Hpk & Hm'). apply filter_In in Hm'.
  destruct Hm' as [Hm' Hlk]. apply String.eqb_eq in Hlk. simpl in Hpk.
  apply Hnew. apply in_map_iff. exists m'. split; auto.
  unfold manifestKeys. now rewrite Hlk, Hpk.
Qed.

Lemma NoDup_snoc {A : Type} (l : list A) (x : A) :
  NoDup (l ++ [x]) -> NoDup l /\ ~ In x l.
Proof.
  intros H. split.
  - apply NoDup_remove_1 in H. now rewrite app_nil_r in H.
  - apply NoDup_remove_2 in H. now rewrite app_nil_r in H.
Qed.

Lemma fold_stepped_distinct_buckets l :
  NoDup (map manifestKeys l) ->
  forall k,
    bucket (fold_left stepped l []) k
    = map entryOf (filter (fun m => licenseKeyOf m =? k) l).
Proof.
  induction l as [|m r IH] using rev_ind; intros Hnd k; auto.
  rewrite map_app in Hnd. simpl in Hnd. apply NoDup_snoc in Hnd.
  destruct Hnd as [Hnd Hnew]. specialize (IH Hnd).
  rewrite fold_stepped_snoc, stepped_bucket, filter_snoc, map_app, IH.
  rewrite (String.eqb_sym k). destruct (licenseKeyOf m =? k) eqn:E; simpl.
  - apply String.eqb_eq in E. subst k.
    apply Map_set_new. now apply entries_lack_new_key.
  - now rewrite app_nil_r.
Qed.

Lemma fold_stepped_distinct_total l :
  NoDup (map manifestKeys l) ->
  totalPackages (fold_left stepped l []) = List.length l.
Proof.
  induction l as [|m r IH] using rev_ind; intros Hnd; auto.
  rewrite map_app in Hnd. simpl in Hnd. apply NoDup_snoc in Hnd.
  destruct Hnd as [Hnd Hnew].
  rewrite fold_stepped_snoc, stepped_totalPackages, IH, List.length_app by auto.
  rewrite fold_stepped_distinct_buckets by auto.
  rewrite entries_lack_new_key by auto. reflexivity.
Qed.

(** X5: when no two manifests left after the filter share both their
    license key and their package key, nothing is overwritten: the bucket of
    a license key holds exactly the records of the manifests with that key,
    in the order of the sorted list, and the table has one row per manifest
    left after the filter. *)
Theorem group_distinct_keys_keeps_all
  (localeCompare : string -> string -> Z) (bold : string -> string)
  (resolved : list Manifest)
  (Hdistinct : NoDup (map manifestKeys (getManifests localeCompare resolved))) :
  exists g body,
    group (getManifests localeCompare resolved) = Some g
    /\ (forall k,
          bucket g k
          = map entryOf (filter (fun m => licenseKeyOf m =? k)
                                (getManifests localeCompare resolved)))
    /\ licenses_list localeCompare bold true resolved
       = Some (ReporterTable tableHead body)
    /\ List.length body = List.length (getManifests localeCompare resolved).
Proof.
  set (l := getManifests localeCompare resolved) in *.
  exists (fold_left stepped l []), (tableBody (fold_left stepped l [])).
  assert (Hg : group l = Some (fold_left stepped l [])) by apply groupFrom_fold.
  split; auto. split; [now apply fold_stepped_distinct_buckets|].
  split; [unfold licenses_list; fold l; now rewrite Hg|].
  rewrite <- (fold_stepped_distinct_total l Hdistinct).
  rewrite tableBody_flat_map, flat_map_length_sum. unfold totalPackages.
  f_equal. apply map_ext. intros [k b]. simpl. apply List.length_map.
Qed.

Lemma group_distinct_keys_keeps_all_witness :
  NoDup (map manifestKeys
           (getManifests codeUnitCompare
              [pkg (Some "b") "1.0" (Some "MIT"); pkg (Some "a") "2.0" (Some "MIT");
               pkg (Some "a") "1.0" (Some "MIT")]))
  /\ exists g body,
       group (getManifests codeUnitCompare
                [pkg (Some "b") "1.0" (Some "MIT"); pkg (Some "a") "2.0" (Some "MIT");
                 pkg (Some "a") "1.0" (Some "MIT")]) = Some g
       /\ licenses_list codeUnitCompare (fun s => s) true
            [pkg (Some "b") "1.0" (Some "MIT"); pkg (Some "a") "2.0" (Some "MIT");
             pkg (Some "a") "1.0" (Some "MIT")]
          = Some (ReporterTable tableHead body)
       /\ List.length body = 3%nat.
Proof.
  assert (H : NoDup (map manifestKeys
                       (getManifests codeUnitCompare
                          [pkg (Some "b") "1.0" (Some "MIT");
                           pkg (Some "a") "2.0" (Some "MIT");
                           pkg (Some "a") "1.0" (Some "MIT")]))).
  { vm_compute. repeat constructor; simpl; intuition discriminate. }
  split; [exact H|].
  destruct (group_distinct_keys_keeps_all codeUnitCompare (fun s => s) _ H)
    as (g & body & H1 & _ & H3 & H4).
  exists g, body. repeat split; auto.
Defined.

(** ** Nothing to show *)

Lemma filter_none {A : Type} (p : A -> bool) (l : list A) :
  (forall x, In x l -> p x = false) -> filter p l = [].
Proof.
  induction l as [|x r IH]; intros H; simpl; auto.
  rewrite (H x) by now left. apply IH. intros y Hy. apply H. now right.
Qed.

(** X6: when every resolved manifest is ignored or lacks a reference (so
    also when none was resolved), [list] still calls the reporter: with the
    table head and no row, or with the forced tree "licenses" without a
    node; and the disclaimer is the empty array. *)
Theorem all_ignored_renders_empty
  (localeCompare : string -> string -> Z) (bold : string -> string)
  (resolved : list Manifest)
  (Hignored : forall m, In m resolved -> notIgnored m = false) :
  getManifests localeCompare resolved = []
  /\ licenses_list localeCompare bold true resolved
     = Some (ReporterTable
               ["Name"; "Version"; "License"; "URL"; "VendorUrl"; "VendorName"] [])
  /\ licenses_list localeCompare bold false resolved
     = Some (ReporterTree "licenses" [] true)
  /\ generateDisclaimer localeCompare resolved = [].
Proof.
  assert (E : getManifests localeCompare resolved = []).
  { unfold getManifests. apply filter_none. intros m Hm. apply Hignored.
    eapply Permutation_in; [apply Array_sort_Permutation | exact Hm]. }
  unfold licenses_list, generateDisclaimer. rewrite E. repeat split.
Qed.

Lemma all_ignored_renders_empty_witness :
  generateDisclaimer codeUnitCompare
    [{| name := Some "x"; version := "1.0"; license := Some "MIT";
        repository := None; homepage := None; author := None;
        licenseText := None; private := None;
        _reference := Some {| ignore := true |} |};
     {| name := Some "y"; version := "1.0"; license := Some "MIT";
        repository := None; homepage := None; author := None;
        licenseText := None; private := None; _reference := None |}]
  = [].
Proof.
  refine (proj2 (proj2 (proj2
            (all_ignored_renders_empty codeUnitCompare (fun s => s) _ _)))).
  intros m [<- | [<- | []]]; reflexivity.
Defined.

(** ** The sort and the filter, again *)

Section SortMore.
Context {A : Type}.
Variable cmp : A -> A -> Z.
Hypothesis cmp_consistent : consistentComparator cmp.

Lemma sort_insert_first x l :
  (forall z, In z l -> notAfter cmp x z) -> sort_insert cmp x l = x :: l.
Proof.
  destruct l as [|y r]; simpl; auto. intros H.
  assert (Hy : notAfter cmp x y) by (apply H; now left).
  unfold notAfter in Hy. destruct (0 <? cmp x y)%Z eqn:E; auto.
  apply Z.ltb_lt in E. lia.
Qed.

(** Inserting and then filtering is filtering and then inserting. *)
Lemma sort_insert_filter_swap (p : A -> bool) x l :
  StronglySorted (notAfter cmp) l ->
  filter p (sort_insert cmp x l)
  = if p x then sort_insert cmp x (filter p l) else filter p l.
Proof.
  induction 1 as [|y r Hr IH Hy]; simpl.
  - now destruct (p x).
  - destruct (0 <? cmp x y)%Z eqn:E; simpl.
    + rewrite IH. destruct (p y), (p x); simpl; rewrite ?E; auto.
    + destruct (p x) eqn:Px; auto.
      symmetry. apply sort_insert_first. intros z Hz.
      assert (Hz' : In z (y :: r)).
      { change (filter p (y :: r)) with (if p y then y :: filter p r else filter p r) in Hz.
        destruct (p y); [destruct Hz as [<- | Hz]; [now left|]|];
          right; now apply filter_In in Hz. }
      apply Z.ltb_ge in E.
      destruct Hz' as [<- | Hz']; [exact E|].
      apply (notAfter_trans cmp cmp_consistent) with y; [exact E|].
      rewrite Forall_forall in Hy. now apply Hy.
Qed.

Lemma Array_sort_filter_swap (p : A -> bool) l :
  filter p (Array_sort cmp l) = Array_sort cmp (filter p l).
Proof.
  induction l as [|x r IH]; simpl; auto.
  rewrite sort_insert_filter_swap by now apply Array_sort_StronglySorted.
  rewrite IH. now destruct (p x).
Qed.

(** Two sorted arrangements of the same elements are the same list when
    the comparator ties no two different elements. *)
Lemma sorted_Permutation_eq l : forall l',
  StronglySorted (notAfter cmp) l -> StronglySorted (notAfter cmp) l' ->
  Permutation l l' ->
  (forall a b, In a l -> In b l -> cmp a b = 0%Z -> a = b) ->
  l = l'.
Proof.
  destruct cmp_consistent as [Hs _].
  induction l as [|a r IH]; intros l' S S' P Hties.
  - now apply Permutation_nil in P.
  - destruct l' as [|a' r']; [apply Permutation_sym, Permutation_nil in P; discriminate|].
    apply StronglySorted_inv in S, S'. destruct S as [Sr Ha], S' as [Sr' Ha'].
    rewrite Forall_forall in Ha, Ha'.
    assert (E : a = a').
    { assert (H1 : In a (a' :: r')) by (eapply Permutation_in; [exact P | now left]).
      assert (H2 : In a' (a :: r))
        by (eapply Permutation_in; [apply Permutation_sym; exact P | now left]).
      destruct H1 as [H1 | H1]; [auto|]. destruct H2 as [H2 | H2]; [auto|].
      apply Hties; [now left | now right |].
      pose proof (Ha _ H2) as L1. pose proof (Ha' _ H1) as L2.
      unfold notAfter in L1, L2. specialize (Hs a a'). lia. }
    subst a'. f_equal. apply IH; auto.
    + now apply Permutation_cons_inv in P.
    + intros x y Hx Hy. apply Hties; now right.
Qed.

End SortMore.

(** X7: for a consistent [localeCompare], filtering before the sort gives
    what [getManifests] gives by sorting first: the ignored manifests have
    no part in the order of the others, and [getManifests] returns the same
    list with or without them in its input. *)
Theorem getManifests_filter_first
  (localeCompare : string -> string -> Z)
  (Hcollation : consistentComparator localeCompare)
  (resolved : list Manifest) :
  getManifests localeCompare resolved
  = Array_sort (byName localeCompare) (filter notIgnored resolved)
  /\ getManifests localeCompare (filter notIgnored resolved)
     = getManifests localeCompare resolved.
Proof.
  pose proof (byName_consistent localeCompare Hcollation) as Hc.
  unfold getManifests. rewrite !Array_sort_filter_swap by exact Hc.
  now rewrite filter_twice.
Qed.

Lemma getManifests_filter_first_witness :
  consistentComparator codeUnitCompare
  /\ getManifests codeUnitCompare
       [pkg (Some "b") "1.0" None;
        {| name := Some "c"; version := "1.0"; license := None;
           repository := None; homepage := None; author := None;
           licenseText := None; private := None; _reference := None |};
        pkg (Some "a") "1.0" None]
     = Array_sort (byName codeUnitCompare)
         [pkg (Some "b") "1.0" None; pkg (Some "a") "1.0" None].
Proof.
  split; [exact codeUnitCompare_consistent|].
  exact (proj1 (getManifests_filter_first codeUnitCompare
                  codeUnitCompare_consistent
                  [pkg (Some "b") "1.0" None;
                   {| name := Some "c"; version := "1.0"; license := None;
                      repository := None; homepage := None; author := None;
                      licenseText := None; private := None; _reference := None |};
                   pkg (Some "a") "1.0" None])).
Defined.

(** X8: for a consistent [localeCompare] that ties no two different
    resolved manifests (so with at most one unnamed manifest), the order in
    which the provider gives the manifests does not matter: [getManifests]
    returns the same list for every permutation of its input. *)
Theorem getManifests_input_order_irrelevant
  (localeCompare : string -> string -> Z)
  (Hcollation : consistentComparator localeCompare)
  (resolved resolved' : list Manifest)
  (Hperm : Permutation resolved resolved')
  (Hties : forall a b, In a resolved -> In b resolved ->
                       byName localeCompare a b = 0%Z -> a = b) :
  getManifests localeCompare resolved = getManifests localeCompare resolved'.
Proof.
  pose proof (byName_consistent localeCompare Hcollation) as Hc.
  unfold getManifests. f_equal.
  apply (sorted_Permutation_eq (byName localeCompare) Hc).
  - now apply Array_sort_StronglySorted.
  - now apply Array_sort_StronglySorted.
  - eapply perm_trans; [apply Array_sort_Permutation|].
    eapply perm_trans; [exact Hperm | apply Permutation_sym, Array_sort_Permutation].
  - intros a b Ha Hb. apply Hties.
    + eapply Permutation_in; [apply Array_sort_Permutation | exact Ha].
    + eapply Permutation_in; [apply Array_sort_Permutation | exact Hb].
Qed.

Lemma getManifests_input_order_irrelevant_witness :
  consistentComparator codeUnitCompare
  /\ getManifests codeUnitCompare
       [pkg (Some "b") "1.0" None; pkg (Some "a") "1.0" None]
     = getManifests codeUnitCompare
         [pkg (Some "a") "1.0" None; pkg (Some "b") "1.0" None].
Proof.
  split; [exact codeUnitCompare_consistent|].
  apply (getManifests_input_order_irrelevant codeUnitCompare
           codeUnitCompare_consistent).
  - apply perm_swap.
  - intros a b [<- | [<- | []]] [<- | [<- | []]] E;
      try reflexivity; vm_compute in E; discriminate.
Defined.

(** ** More about the disclaimer *)

Lemma allWhiteSpace_trim s : allWhiteSpace s = true -> trim s = "".
Proof.
  unfold trim. induction s as [|c r IH]; simpl; auto.
  intros H. apply andb_true_iff in H. destruct H as [Hc Hr]. rewrite Hc. auto.
Qed.

Lemma allWhiteSpace_app a b :
  allWhiteSpace a = true -> allWhiteSpace b = true ->
  allWhiteSpace (a ++ b)%string = true.
Proof.
  induction a as [|c r IH]; simpl; auto.
  intros H Hb. apply andb_true_iff in H. destruct H as [Hc Hr].
  rewrite Hc. simpl. auto.
Qed.

Lemma trim_empty_iff s : trim s = "" <-> allWhiteSpace s = true.
Proof.
  split; [|apply allWhiteSpace_trim].
  intros E. destruct (proj1 (trim_spec s)) as (pre & post & Hs & Hpre & Hpost).
  rewrite E in Hs. simpl in Hs. rewrite Hs. now apply allWhiteSpace_app.
Qed.

(** X9: the licenseText of a disclaimer entry is the empty string exactly
    when the manifest's licenseText is a non-empty string of white space
    only: such a text is not left out, as the empty text is, but trimmed to
    nothing. *)
Theorem disclaimerEntry_blank_licenseText (m : Manifest) :
  entry_licenseText (disclaimerEntry m) = Some ""
  <-> exists s, licenseText m = Some s /\ s <> "" /\ allWhiteSpace s = true.
Proof.
  unfold disclaimerEntry. simpl. destruct (licenseText m) as [s|]; simpl.
  - destruct (s =? "") eqn:E; simpl.
    + apply String.eqb_eq in E. subst. split; [discriminate|].
      intros (s & H & Hne & _). inversion H. subst. now destruct Hne.
    + apply String.eqb_neq in E. split.
      * intros H. inversion H as [Ht]. exists s. rewrite Ht.
        repeat split; auto. now apply trim_empty_iff.
      * intros (s' & H & _ & Hw). inversion H. subst s'.
        now rewrite allWhiteSpace_trim.
  - split; [discriminate | intros (s & H & _); discriminate].
Qed.

Lemma filter_filter_andb {A : Type} (p q : A -> bool) (l : list A) :
  filter q (filter p l) = filter (fun x => p x && q x) l.
Proof.
  induction l as [|x r IH]; simpl; auto.
  destruct (p x); simpl; [destruct (q x)|]; now rewrite IH.
Qed.

(** X10: whatever the order, the disclaimer holds one entry for each
    resolved manifest that is neither ignored nor private, and nothing else:
    it is a rearrangement of their entries. Manifests that share a name and
    a version each keep their entry. *)
Theorem generateDisclaimer_Permutation
  (localeCompare : string -> string -> Z) (resolved : list Manifest) :
  Permutation (generateDisclaimer localeCompare resolved)
              (map disclaimerEntry
                   (filter (fun m => notIgnored m && notPrivate m) resolved))
  /\ List.length (generateDisclaimer localeCompare resolved)
     = List.length (filter (fun m => notIgnored m && notPrivate m) resolved).
Proof.
  assert (P : Permutation (generateDisclaimer localeCompare resolved)
                (map disclaimerEntry
                     (filter (fun m => notIgnored m && notPrivate m) resolved))).
  { unfold generateDisclaimer, getManifests.
    rewrite disclaimerData_map, filter_filter_andb.
    apply Permutation_map, filter_Permutation, Array_sort_Permutation. }
  split; auto. rewrite (Permutation_length P). apply List.length_map.
Qed.

Lemma StronglySorted_map {A B : Type} (R : B -> B -> Prop) (f : A -> B) l :
  StronglySorted (fun a b => R (f a) (f b)) l -> StronglySorted R (map f l).
Proof.
  induction 1 as [|x l _ IH Hx]; simpl; constructor; auto.
  apply Forall_forall. intros y Hy. apply in_map_iff in Hy.
  destruct Hy as (z & <- & Hz). rewrite Forall_forall in Hx. now apply Hx.
Qed.

(** X11: for a consistent [localeCompare] the disclaimer is sorted by name:
    no entry without a (non-empty) name stands before an entry with one, and
    the names of the named entries are in [localeCompare] order. *)
Theorem generateDisclaimer_sorted_by_name
  (localeCompare : string -> string -> Z)
  (Hcollation : consistentComparator localeCompare)
  (resolved : list Manifest) :
  StronglySorted
    (fun e1 e2 => namesOrdered localeCompare (entry_name e1) (entry_name e2))
    (generateDisclaimer localeCompare resolved).
Proof.
  pose proof (byName_consistent localeCompare Hcollation) as Hc.
  unfold generateDisclaimer, getManifests. rewrite disclaimerData_map.
  apply StronglySorted_map. do 2 apply filter_StronglySorted.
  eapply StronglySorted_weaken; [|apply Array_sort_StronglySorted, Hc].
  intros a b H. apply byName_nameOrdered in H. exact H.
Qed.

Lemma generateDisclaimer_sorted_by_name_witness :
  consistentComparator codeUnitCompare
  /\ StronglySorted
       (fun e1 e2 => namesOrdered codeUnitCompare (entry_name e1) (entry_name e2))
       (generateDisclaimer codeUnitCompare
          [pkg (Some "b") "1.0" None; pkg None "1.0" None; pkg (Some "a") "1.0" None]).
Proof.
  split; [exact codeUnitCompare_consistent|].
  exact (generateDisclaimer_sorted_by_name codeUnitCompare
           codeUnitCompare_consistent
           [pkg (Some "b") "1.0" None; pkg None "1.0" None; pkg (Some "a") "1.0" None]).
Defined.

(** ** More about the table and the tree *)

Lemma js_or_str_firstNonEmpty a d : js_or_str a d = firstNonEmpty [a] d.
Proof.
  unfold js_or_str, truthy. destruct a as [s|]; simpl; auto.
  now destruct (s =? "").
Qed.

Lemma js_or_firstNonEmpty a b d :
  js_or_str (js_or a b) d = firstNonEmpty [a; b] d.
Proof.
  unfold js_or, truthy. destruct a as [s|]; simpl.
  - destruct (s =? "") eqn:E; simpl.
    + apply js_or_str_firstNonEmpty.
    + unfold js_or_str, truthy. now rewrite E.
  - apply js_or_str_firstNonEmpty.
Qed.

(** X12: every row of the table is the row of a resolved manifest that is
    not ignored: its name, its version, its license or "UNKNOWN", then as
    URL the URL of its repository record, or its homepage when it has no
    repository record, as VendorUrl its homepage or else its author's URL,
    and as VendorName its author's name, each being "Unknown" when no
    non-empty string is found. A manifest with a repository record without
    URL shows "Unknown" as URL whatever its homepage is. *)
Theorem list_json_rows_of_manifests
  (localeCompare : string -> string -> Z) (bold : string -> string)
  (resolved : list Manifest) :
  exists body,
    licenses_list localeCompare bold true resolved
    = Some (ReporterTable tableHead body)
    /\ forall row, In row body ->
         exists m,
           In m resolved /\ notIgnored m = true
           /\ row = [name m; Some (version m);
                     Some (firstNonEmpty [license m] "UNKNOWN");
                     Some (match repository m with
                           | Some r => firstNonEmpty [repo_url r] "Unknown"
                           | None => firstNonEmpty [homepage m] "Unknown"
                           end);
                     Some (firstNonEmpty
                             [homepage m;
                              match author m with
                              | Some a => author_url a
                              | None => None
                              end] "Unknown");
                     Some (firstNonEmpty
                             [match author m with
                              | Some a => author_name a
                              | None => None
                              end] "Unknown")].
Proof.
  set (l := getManifests localeCompare resolved).
  assert (Hg : group l = Some (fold_left stepped l [])) by apply groupFrom_fold.
  exists (tableBody (fold_left stepped l [])).
  unfold licenses_list. fold l. rewrite Hg. split; auto.
  intros row Hrow. rewrite tableBody_flat_map in Hrow.
  apply in_flat_map in Hrow. destruct Hrow as ([k b] & Hkb & Hrow).
  simpl in Hrow. apply in_map_iff in Hrow. destruct Hrow as ([pk i] & <- & Hi).
  destruct (fold_stepped_from_manifests l k b pk i Hkb Hi)
    as (m & Hm & -> & -> & ->).
  apply getManifests_In in Hm. destruct Hm as [Hm Hn].
  exists m. split; auto. split; auto. unfold tableRow. simpl.
  unfold licenseKeyOf, urlOf, vendorUrlOf, vendorNameOf.
  rewrite js_or_firstNonEmpty, !js_or_str_firstNonEmpty.
  now destruct (repository m).
Qed.

Lemma map_flat_map_swap {A B C : Type} (f : B -> C) (h : A -> list B) (l : list A) :
  map f (flat_map h l) = flat_map (fun x => map f (h x)) l.
Proof. induction l as [|x r IH]; simpl; auto. now rewrite map_app, IH. Qed.

(** X13: the tree and the table of the same resolved manifests show the
    same packages in the same order: reading the license label and the
    package label of every package node of the tree gives what reading the
    License cell and name@version of the Name and Version cells of every row
    of the table gives; and the labels of the license nodes are the license
    keys of the grouping, each once. *)
Theorem list_tree_and_table_agree
  (localeCompare : string -> string -> Z) (bold : string -> string)
  (resolved : list Manifest) :
  exists g trees body,
    group (getManifests localeCompare resolved) = Some g
    /\ licenses_list localeCompare bold false resolved
       = Some (ReporterTree "licenses" trees true)
    /\ licenses_list localeCompare bold true resolved
       = Some (ReporterTable tableHead body)
    /\ map rowPackage body = map Some (treePackages trees)
    /\ map treeLabel trees = Map_keys g
    /\ NoDup (map treeLabel trees).
Proof.
  set (l := getManifests localeCompare resolved).
  assert (Hg : group l = Some (fold_left stepped l [])) by apply groupFrom_fold.
  assert (U : uniqueKeys (fold_left stepped l []))
    by apply fold_stepped_uniqueKeys, uniqueKeys_empty.
  revert Hg U. generalize (fold_left stepped l []). intros g Hg [U _].
  exists g, (licenseTrees bold g), (tableBody g).
  unfold licenses_list. fold l. rewrite Hg. split; auto. split; auto. split; auto.
  assert (L : map treeLabel (licenseTrees bold g) = Map_keys g).
  { rewrite licenseTrees_map, map_map. reflexivity. }
  split; [|split; [exact L | now rewrite L]].
  rewrite tableBody_flat_map, licenseTrees_map. unfold treePackages.
  rewrite !map_flat_map_swap. clear. induction g as [|[k b] r IH]; simpl; auto.
  rewrite IH, !map_map. reflexivity.
Qed.

(** X14: for a consistent [localeCompare], and when no two manifests left
    after the filter share both their license key and their package key, the
    packages of every bucket stand in name order: unnamed ones last, the
    named ones by [localeCompare]. *)
Theorem group_buckets_sorted_by_name
  (localeCompare : string -> string -> Z)
  (Hcollation : consistentComparator localeCompare)
  (resolved : list Manifest)
  (Hdistinct : NoDup (map manifestKeys (getManifests localeCompare resolved))) :
  exists g,
    group (getManifests localeCompare resolved) = Some g
    /\ forall k,
         StronglySorted
           (fun e1 e2 => namesOrdered localeCompare
                           (info_name (snd e1)) (info_name (snd e2)))
           (bucket g k).
Proof.
  pose proof (byName_consistent localeCompare Hcollation) as Hc.
  exists (fold_left stepped (getManifests localeCompare resolved) []).
  split; [apply groupFrom_fold|]. intros k.
  rewrite fold_stepped_distinct_buckets by exact Hdistinct.
  apply StronglySorted_map. unfold getManifests.
  do 2 apply filter_StronglySorted.
  eapply StronglySorted_weaken; [|apply Array_sort_StronglySorted, Hc].
  intros a b H. apply byName_nameOrdered in H. exact H.
Qed.

Lemma group_buckets_sorted_by_name_witness :
  consistentComparator codeUnitCompare
  /\ NoDup (map manifestKeys
              (getManifests codeUnitCompare
                 [pkg (Some "b") "1.0" (Some "MIT"); pkg (Some "a") "2.0" (Some "MIT")]))
  /\ exists g,
       group (getManifests codeUnitCompare
                [pkg (Some "b") "1.0" (Some "MIT"); pkg (Some "a") "2.0" (Some "MIT")])
       = Some g
       /\ StronglySorted
            (fun e1 e2 => namesOrdered codeUnitCompare
                            (info_name (snd e1)) (info_name (snd e2)))
            (bucket g "MIT").
Proof.
  assert (H : NoDup (map manifestKeys
                       (getManifests codeUnitCompare
                          [pkg (Some "b") "1.0" (Some "MIT");
                           pkg (Some "a") "2.0" (Some "MIT")]))).
  { vm_compute. repeat constructor; simpl; intuition discriminate. }
  split; [exact codeUnitCompare_consistent|]. split; [exact H|].
  destruct (group_buckets_sorted_by_name codeUnitCompare
              codeUnitCompare_consistent _ H) as (g & Hg & Hs).
  exists g. split; [exact Hg | apply Hs].
Defined.
